(** * ts-threads: the event-sourcing store and the peer address book

    A shallow embedding of [Store] (store/index.ts), and of [AddrBook]
    (the address book of the thread store), over a model of the keyed
    datastore they persist into.  Asynchronous calls are modelled in the
    order in which their effects take place; a promise that the source
    does not [await] is modelled as a promise object. *)

From Stdlib Require Import ZArith String Ascii List Lia.
From Stdlib.Strings Require Import Byte.
From stdpp Require Import base option list strings gmap fin_maps.

Local Open Scope string_scope.
Local Open Scope Z_scope.
Local Open Scope list_scope.

(** ** JavaScript errors and results *)

(** A thrown [Error], identified by its message. *)
Record Error := mkError { message : string }.

(** [err.toString()] of an [Error]. *)
Definition Error_toString (err : Error) : string := String.append "Error: " (message err).

(** The outcome of a call that may throw. *)
Inductive Result (A : Type) : Type :=
| Ok (a : A)
| Throw (err : Error).
Arguments Ok {A} a.
Arguments Throw {A} err.

Definition is_Ok {A} (r : Result A) : bool :=
  match r with Ok _ => true | Throw _ => false end.

(** A promise object.  Its payload is reached through [await] only; the
    object itself is truthy whatever it resolves to. *)
Inductive Promise (A : Type) : Type := Resolves (a : A).
Arguments Resolves {A} a.

Definition await {A} (p : Promise A) : A := match p with Resolves a => a end.

(** JavaScript truthiness of an object reference. *)
Definition truthy_object {A} (p : Promise A) : bool := true.

(** A Node [Buffer]. *)
Abbreviation Buffer := (list Byte.byte).

(** ** Datastore keys (interface-datastore [Key]) *)

Module Key.

(** A key is held as its path string, [/a/b/c]. *)

Definition pathSep : ascii := "/"%char.

(** Drop the slashes at the end of a reversed path, keeping one
    character at least. *)
Fixpoint strip_trailing (rev_chars : list ascii) : list ascii :=
  match rev_chars with
  | c :: (_ :: _) as rest => if Ascii.eqb c pathSep then strip_trailing rest else rev_chars
  | _ => rev_chars
  end.

(** [Key.clean]: an empty path is the root, a leading slash is added
    when missing, trailing slashes are dropped. *)
Definition clean (s : string) : string :=
  match s with
  | EmptyString => "/"
  | String c _ =>
      let s' := if Ascii.eqb c pathSep then s else String pathSep s in
      string_of_list_ascii (rev (strip_trailing (rev (list_ascii_of_string s'))))
  end.

(** [new Key(s)]. *)
Definition new (s : string) : string := clean s.

Definition toString (k : string) : string := k.

(** [s.split(sep)] of JavaScript: the segments between separators. *)
Fixpoint split_aux (sep : ascii) (s : string) (cur : string) : list string :=
  match s with
  | EmptyString => [cur]
  | String c rest =>
      if Ascii.eqb c sep then cur :: split_aux sep rest EmptyString
      else split_aux sep rest (String.append cur (String c EmptyString))
  end.

Definition split (sep : ascii) (s : string) : list string := split_aux sep s EmptyString.

(** [l.join('/')]. *)
Fixpoint join (l : list string) : string :=
  match l with
  | [] => EmptyString
  | [x] => x
  | x :: rest => String.append x (String pathSep (join rest))
  end.

(** [key.namespaces()], that is [key.list()]:
    [toString().split('/').slice(1)]. *)
Definition namespaces (k : string) : list string := tail (split pathSep (toString k)).

(** [key.baseNamespace()]: the last namespace. *)
Definition baseNamespace (k : string) : string := List.last (namespaces k) EmptyString.

(** [namespaceValue(ns)]: the part after the last colon. *)
Definition namespaceValue (ns : string) : string := List.last (split ":"%char ns) EmptyString.

(** [key.name()]. *)
Definition name (k : string) : string := namespaceValue (baseNamespace k).

(** [Key.withNamespaces(list)]. *)
Definition withNamespaces (l : list string) : string := new (join l).

(** [key.reverse()]. *)
Definition reverse (k : string) : string := withNamespaces (rev (namespaces k)).

(** [key.parent()]. *)
Definition parent (k : string) : string :=
  let l := namespaces k in
  if (length l =? 1)%nat then new "/" else new (join (removelast l)).

(** [key.child(other)]. *)
Definition child (k other : string) : string :=
  if String.eqb (toString k) "/" then other
  else if String.eqb (toString other) "/" then k
  else String.append (toString k) (toString other).

End Key.

Example key_new_store : Key.new "store" = "/store".
Proof. reflexivity. Qed.

Example key_child_store : Key.child (Key.new "store") (Key.new "schema") = "/store/schema".
Proof. reflexivity. Qed.

Example key_name_person : Key.name "/store/schema/Person" = "Person".
Proof. reflexivity. Qed.

Example key_reverse_addr :
  Key.reverse "/tid/lid/ip4/127.0.0.1" = "/127.0.0.1/ip4/lid/tid".
Proof. reflexivity. Qed.

Example key_log_of_addr :
  Key.baseNamespace (Key.parent (Key.reverse "/tid/lid/ip4/127.0.0.1")) = "lid".
Proof. reflexivity. Qed.

(** ** The datastore interface (interface-datastore [Datastore<Buffer>]) *)

(** The error a datastore raises for a key it does not hold. *)
Definition notFoundError : Error := mkError "Not Found".

(** What the store and the address book call on a datastore.  [ds_get]
    throws when the key is absent or when the backend fails; [ds_query]
    is [query({ prefix })]. *)
Class Datastore (D : Type) := {
  ds_get : string -> D -> Result Buffer;
  ds_has : string -> D -> bool;
  ds_put : string -> Buffer -> D -> D;
  ds_delete : string -> D -> D;
  ds_query : string -> D -> list (string * Buffer);
}.

(** The mutations recorded by [datastore.batch()], oldest first. *)
Inductive BatchOp : Type :=
| BatchPut (key : string) (value : Buffer)
| BatchDelete (key : string).

Definition op_key (op : BatchOp) : string :=
  match op with BatchPut k _ => k | BatchDelete k => k end.

Definition apply_op {D} `{Datastore D} (d : D) (op : BatchOp) : D :=
  match op with
  | BatchPut k v => ds_put k v d
  | BatchDelete k => ds_delete k d
  end.

Definition batch_is_put (op : BatchOp) : bool :=
  match op with BatchPut _ _ => true | BatchDelete _ => false end.

(** The puts and the deletes that a batch keeps, each list in the order
    in which its operations were recorded. *)
Definition batch_puts (batch : list BatchOp) : list BatchOp :=
  List.filter batch_is_put batch.

Definition batch_deletes (batch : list BatchOp) : list BatchOp :=
  List.filter (fun op => negb (batch_is_put op)) batch.

(** [batch.commit()] of [MemoryDatastore], the datastore a store is given
    by default: the batch keeps its puts and its deletes apart, and the
    commit carries out the puts, in the order recorded, and then the
    deletes, so that a delete of a key prevails over every put of that
    key in the same batch. *)
Definition batch_commit {D} `{Datastore D} (batch : list BatchOp) (d : D) : D :=
  fold_left apply_op (batch_deletes batch) (fold_left apply_op (batch_puts batch) d).

(** The contract of a datastore that keeps what it is given. *)
Class DatastoreLaws (D : Type) `{Datastore D} : Prop := {
  get_put_eq : forall k v d, ds_get k (ds_put k v d) = Ok v;
  get_put_ne : forall k k' v d, k <> k' -> ds_get k (ds_put k' v d) = ds_get k d;
  get_delete_eq : forall k d, ds_get k (ds_delete k d) = Throw notFoundError;
  get_delete_ne : forall k k' d, k <> k' -> ds_get k (ds_delete k' d) = ds_get k d;
}.

(** [MemoryDatastore]: a map from key strings to buffers. *)
Abbreviation MemoryDatastore := (gmap string Buffer).

#[global] Instance MemoryDatastore_Datastore : Datastore MemoryDatastore := {
  ds_get k d := match d !! k with Some v => Ok v | None => Throw notFoundError end;
  ds_has k d := bool_decide (is_Some (d !! k));
  ds_put k v d := <[k := v]> d;
  ds_delete k d := delete k d;
  ds_query p d := filter (fun kv => String.prefix p (fst kv) = true) (map_to_list d);
}.

#[global] Instance MemoryDatastore_Laws : DatastoreLaws MemoryDatastore.
Proof.
  split; intros; cbn.
  - by rewrite lookup_insert_eq.
  - by rewrite lookup_insert_ne.
  - by rewrite lookup_delete_eq.
  - by rewrite lookup_delete_ne.
Qed.

(** A datastore whose backend fails on every read with the error it
    carries (a closed or unreachable backend). *)
Record FailingDatastore := { failing_store : MemoryDatastore; failing_error : Error }.

#[global] Instance FailingDatastore_Datastore : Datastore FailingDatastore := {
  ds_get k d := Throw (failing_error d);
  ds_has k d := false;
  ds_put k v d := d;
  ds_delete k d := d;
  ds_query p d := [];
}.

(** ** Events, actions and the event codec (threads-core) *)

(** [Action.Type].  A tag outside the enumeration is what the [default]
    branch of [Store.reduce] receives. *)
Inductive ActionType : Type :=
| Create
| Save
| Delete
| UnknownType (tag : nat).

(** The normalized action a codec reports for one event. *)
Record ReduceAction := {
  action_type : ActionType;
  action_collection : string;
  action_entityID : string;
}.

(** What [eventCodec.reduce] resolves to: the new state, [undefined]
    when there is none, and the normalized action. *)
Record ReduceState (T : Type) := {
  state : option T;
  action : ReduceAction;
}.
Arguments state {T} r.
Arguments action {T} r.

(** An [Event] names the collection and the entity it is about. *)
Class Event (E : Type) := {
  collection : E -> string;
  entityID : E -> string;
}.

(** The reducing half of an [EventCodec]. *)
Class EventCodec (E T : Type) := {
  codec_reduce : option T -> E -> Result (ReduceState T);
}.

(** cbor-sync's [encode] and [decode] at one type of values. *)
Class Cbor (V : Type) := {
  encode : V -> Buffer;
  decode : Buffer -> Result V;
}.

(** Ajv's [compile]. *)
Class SchemaCompiler (JSONSchema Validator : Type) := {
  compile : JSONSchema -> Result Validator;
}.

(** [ThreadID.fromBytes]. *)
Class ThreadIDCodec (ThreadID : Type) := {
  fromBytes : Buffer -> Result ThreadID;
}.

(** A [Collection]: its name and its compiled schema. *)
Record Collection (Validator : Type) := {
  collection_name : string;
  collection_validator : Validator;
}.
Arguments collection_name {Validator} c.
Arguments collection_validator {Validator} c.

(** What the store's [EventEmitter] is asked to emit. *)
Inductive StoreEvent : Type :=
| stateChange (actions : list ReduceAction).

(** ** Methods: state and exceptions *)

(** A method of an object whose fields are [S]: it reads and writes the
    fields and returns or throws. *)
Definition M (S A : Type) : Type := S -> Result A * S.

Definition ret {S A} (a : A) : M S A := fun st => (Ok a, st).

Definition throw {S A} (err : Error) : M S A := fun st => (Throw err, st).

Definition bind {S A B} (m : M S A) (k : A -> M S B) : M S B :=
  fun st =>
    match m st with
    | (Ok a, st') => k a st'
    | (Throw err, st') => (Throw err, st')
    end.

(** A call that returns or throws without touching the fields. *)
Definition lift {S A} (r : Result A) : M S A := fun st => (r, st).

(** Read a field of [this]. *)
Definition gets {S A} (f : S -> A) : M S A := fun st => (Ok (f st), st).

(** [try { body } catch (err) { handler(err) }]. *)
Definition try_catch {S A} (body : M S A) (handler : Error -> M S A) : M S A :=
  fun st =>
    match body st with
    | (Ok a, st') => (Ok a, st')
    | (Throw err, st') => handler err st'
    end.

Notation "x <- m ;; k" := (bind m (fun x => k))
  (at level 100, m at next level, right associativity).
Notation "m ;;; k" := (bind m (fun _ => k))
  (at level 100, right associativity).

(** ** The store *)

Definition baseKey : string := Key.new "store".
Definition threadKey : string := Key.child baseKey (Key.new "threadid").
Definition schemaKey : string := Key.child baseKey (Key.new "schema").

(** Modelled from the spec: [CollectionKey] of the collection module,
    which is not part of the sources at hand; entity state is kept under
    [/collection/<name>/<entityID>]. *)
Definition CollectionKey : string := Key.new "collection".

Example schemaKey_string : schemaKey = "/store/schema".
Proof. reflexivity. Qed.

Example threadKey_string : threadKey = "/store/threadid".
Proof. reflexivity. Qed.

(** The fields of a [Store] that its methods read and write, and the
    notifications emitted so far, oldest first.  [schema] is the Ajv
    instance: the schemas added to it, by key. *)
Record Store (D JSONSchema Validator : Type) := {
  collections : gmap string (Collection Validator);
  schema : gmap string JSONSchema;
  datastore : D;
  emitted : list StoreEvent;
}.
Arguments collections {D JSONSchema Validator} s.
Arguments schema {D JSONSchema Validator} s.
Arguments datastore {D JSONSchema Validator} s.
Arguments emitted {D JSONSchema Validator} s.
Arguments Build_Store {D JSONSchema Validator}.

Section StoreMethods.

Context {D : Type} `{Datastore D}.
Context {E T JSONSchema Validator ThreadID : Type}.
Context `{Event E} `{EventCodec E T} `{Cbor (option T)} `{Cbor JSONSchema}.
Context `{SchemaCompiler JSONSchema Validator} `{ThreadIDCodec ThreadID}.

Abbreviation StoreT := (Store D JSONSchema Validator).
Abbreviation MStore := (M (Store D JSONSchema Validator)).

Definition set_datastore (d : D) : MStore unit :=
  fun st => (Ok tt, Build_Store (collections st) (schema st) d (emitted st)).

Definition set_collections (c : gmap string (Collection Validator)) : MStore unit :=
  fun st => (Ok tt, Build_Store c (schema st) (datastore st) (emitted st)).

Definition set_schema (s : gmap string JSONSchema) : MStore unit :=
  fun st => (Ok tt, Build_Store (collections st) s (datastore st) (emitted st)).

(** [this.emit(...)]. *)
Definition emit (ev : StoreEvent) : MStore unit :=
  fun st => (Ok tt, Build_Store (collections st) (schema st) (datastore st) (emitted st ++ [ev])).

(** [await this.datastore.get(key)]. *)
Definition datastore_get (key : string) : MStore Buffer :=
  fun st => (ds_get key (datastore st), st).

(** [this.datastore.has(key)], not awaited: the promise. *)
Definition datastore_has (key : string) : MStore (Promise bool) :=
  fun st => (Ok (Resolves (ds_has key (datastore st))), st).

(** [this.datastore.put(key, value)]. *)
Definition datastore_put (key : string) (value : Buffer) : MStore unit :=
  d <- gets datastore ;; set_datastore (ds_put key value d).

(** [batch.commit()]. *)
Definition commit (batch : list BatchOp) : MStore unit :=
  d <- gets datastore ;; set_datastore (batch_commit batch d).

(** *** [threadID] *)

(** [threadID()]: whatever is thrown inside the [try] is caught and
    [undefined] is returned. *)
Definition threadID : MStore (option ThreadID) :=
  try_catch
    (buf <- datastore_get threadKey ;;
     id <- lift (fromBytes buf) ;;
     ret (Some id))
    (fun err => ret None).

(** *** [reduce] *)

(** The datastore key of an entity. *)
Definition entityKey (coll id : string) : string :=
  Key.child (Key.child CollectionKey (Key.new coll)) (Key.new id).

Definition eventKey (event : E) : string :=
  entityKey (collection event) (entityID event).

(** The [try] of the loop body: [oldState] stays [undefined] when the
    datastore reports [Not Found], any other error is thrown again. *)
Definition readOldState (key : string) : MStore (option T) :=
  try_catch
    (buf <- datastore_get key ;; lift (decode buf))
    (fun err =>
       if String.eqb (Error_toString err) "Error: Not Found" then ret None
       else throw err).

(** The loop of [reduce], with the batch and the actions built so far. *)
Fixpoint reduce_events (events : list E) (batch : list BatchOp)
    (actions : list ReduceAction) : MStore (list BatchOp * list ReduceAction) :=
  match events with
  | [] => ret (batch, actions)
  | event :: rest =>
      let key := eventKey event in
      oldState <- readOldState key ;;
      r <- lift (codec_reduce oldState event) ;;
      let actions := actions ++ [action r] in
      match action_type (action r) with
      | Delete => reduce_events rest (batch ++ [BatchDelete key]) actions
      | Create =>
          if bool_decide (is_Some oldState) then throw (mkError "Existing Entity")
          else reduce_events rest (batch ++ [BatchPut key (encode (state r))]) actions
      | Save => reduce_events rest (batch ++ [BatchPut key (encode (state r))]) actions
      | UnknownType _ => throw (mkError "Unknown Operation")
      end
  end.

(** [reduce(...events)]. *)
Definition reduce (events : list E) : MStore unit :=
  res <- reduce_events events [] [] ;;
  commit (fst res) ;;;
  emit (stateChange (snd res)).

(** Calls of [reduce] one after the other, each with its batch, as
    [handler] makes them under the write lock. *)
Fixpoint reduce_calls (batches : list (list E)) : MStore unit :=
  match batches with
  | [] => ret tt
  | events :: rest => reduce events ;;; reduce_calls rest
  end.

(** *** [registerSchema], [registerSchemas], [getCollection] *)

(** [this.schema.addSchema(schema, name).compile(schema)]: Ajv refuses a
    key it already holds; a schema that it does not accept is refused
    inside [addSchema], before the key is kept, so that the name can be
    registered again with another schema. *)
Definition addSchema_compile (sch : JSONSchema) (name : string) : MStore Validator :=
  registry <- gets schema ;;
  if bool_decide (is_Some (registry !! name))
  then throw (mkError "schema with key or id already exists")
  else
    compiled <- lift (compile sch) ;;
    set_schema (<[name := sch]> registry) ;;;
    ret compiled.

(** [registerSchema(name, schema)].  The write lock is held for the whole
    body and released on every exit; calls do not overlap here.  [exists]
    is the promise returned by [has], which is not awaited. *)
Definition registerSchema (name : string) (sch : JSONSchema) : MStore unit :=
  cols <- gets collections ;;
  if bool_decide (is_Some (cols !! name)) then throw (mkError "Already Registered")
  else
    compiled <- addSchema_compile sch name ;;
    let coll := {| collection_name := name; collection_validator := compiled |} in
    let key := Key.child baseKey (Key.new name) in
    exists_ <- datastore_has key ;;
    (if negb (truthy_object exists_) then datastore_put key (encode sch) else ret tt) ;;;
    cols <- gets collections ;;
    set_collections (<[name := coll]> cols).

(** [getCollection(name)]. *)
Definition getCollection (name : string) (st : StoreT) : option (Collection Validator) :=
  collections st !! name.

(** The loop of [registerSchemas]: a call of [registerSchema] is not
    awaited, so what it throws is not seen by the loop; [decode] throws
    into the loop. *)
Fixpoint registerSchemas_loop (entries : list (string * Buffer)) : MStore unit :=
  match entries with
  | [] => ret tt
  | (key, value) :: rest =>
      let name := Key.name key in
      sch <- lift (decode value) ;;
      try_catch (registerSchema name sch) (fun _ => ret tt) ;;;
      registerSchemas_loop rest
  end.

(** [registerSchemas()]. *)
Definition registerSchemas : MStore unit :=
  d <- gets datastore ;;
  registerSchemas_loop (ds_query (Key.toString schemaKey) d).

(** [new Store(service, datastore, eventCodec)]: the fields are
    initialised and [registerSchemas] is started, without its outcome
    being looked at. *)
Definition Store_new (d : D) : StoreT :=
  snd (registerSchemas (Build_Store ∅ ∅ d [])).

End StoreMethods.

(** ** Starting the store and handling actions *)

(** The thread service, as far as [start] calls it:
    [ThreadsService.createThread(id)] and [this.service.store.addThread(info)]. *)
Class ThreadService (ThreadID ThreadInfo : Type) := {
  createThread : ThreadID -> Result ThreadInfo;
  addThread : ThreadInfo -> Result unit;
}.

(** [id.bytes()]. *)
Class ThreadIDBytes (ThreadID : Type) := {
  bytes : ThreadID -> Buffer;
}.

(** The encoding half of an [EventCodec]: the events of a batch of
    actions and the block that carries them. *)
Class ActionCodec (A E Block : Type) := {
  codec_encode : list A -> Result (list E * Block);
}.

(** The fields of an [Adapter]. *)
Record Adapter (ThreadID : Type) := {
  adapter_threadID : ThreadID;
  adapter_logID : string;
  adapter_started : bool;
  adapter_closed : bool;
}.
Arguments adapter_threadID {ThreadID} a.
Arguments adapter_logID {ThreadID} a.
Arguments adapter_started {ThreadID} a.
Arguments adapter_closed {ThreadID} a.

(** [new Adapter(store, threadID)]. *)
Definition Adapter_new {ThreadID} (id : ThreadID) : Adapter ThreadID :=
  {| adapter_threadID := id; adapter_logID := ""; adapter_started := false;
     adapter_closed := false |}.

(** [adapter.start()] and [adapter.close()] return at once. *)
Definition Adapter_start {ThreadID} (a : Adapter ThreadID) : Adapter ThreadID := a.
Definition Adapter_close {ThreadID} (a : Adapter ThreadID) : Adapter ThreadID := a.

Section StoreLifecycle.

Context {D : Type} `{Datastore D}.
Context {A E T Block JSONSchema Validator ThreadID ThreadInfo : Type}.
Context `{Event E} `{EventCodec E T} `{Cbor (option T)} `{ActionCodec A E Block}.
Context `{ThreadIDCodec ThreadID} `{ThreadIDBytes ThreadID}.
Context `{ThreadService ThreadID ThreadInfo}.

(** [start()], where [random] is what [ThreadID.fromRandom()] draws.  The
    adapter is kept in a field that no method reads; it is returned
    here. *)
Definition start (random : ThreadID)
    : M (Store D JSONSchema Validator) (Adapter ThreadID) :=
  found <- threadID ;;
  id <- match found with
        | Some id => ret id
        | None =>
            let id := random in
            info <- lift (createThread id) ;;
            lift (addThread info) ;;;
            datastore_put threadKey (bytes id) ;;;
            ret id
        end ;;
  ret (Adapter_start (Adapter_new id)).

(** Modelled from the spec: [dispatcher.dispatch(...events)] of the
    dispatcher module, which is not part of the sources at hand.  The
    batch goes to every registered reducer and what a reducer throws is
    thrown to the caller; the store's dispatcher is private and the store
    is the one reducer registered with it. *)
Definition dispatch (events : list E) : M (Store D JSONSchema Validator) unit :=
  reduce events.

(** A method of the store that also emits [localEvent]: the blocks
    emitted so far, oldest first, are kept beside the store. *)
Definition on_store {R} (m : M (Store D JSONSchema Validator) R)
    : M (Store D JSONSchema Validator * list Block) R :=
  fun s => let (r, st') := m (fst s) in (r, (st', snd s)).

(** [this.emit('localEvent', block)]. *)
Definition emit_localEvent (block : Block)
    : M (Store D JSONSchema Validator * list Block) unit :=
  fun s => (Ok tt, (fst s, snd s ++ [block])).

(** [handler(actions)].  The write lock is held for the whole body and
    released in the [finally]; calls do not overlap here. *)
Definition handler (actions : list A)
    : M (Store D JSONSchema Validator * list Block) unit :=
  encoded <- lift (codec_encode actions) ;;
  on_store (dispatch (fst encoded)) ;;;
  emit_localEvent (snd encoded).

End StoreLifecycle.


(** ** The address book *)

(** A [Multiaddr]: its string form and its bytes. *)
Record Multiaddr := {
  Multiaddr_toString : string;
  Multiaddr_buffer : Buffer;
}.

(** A thread [ID], as far as the address book looks at it. *)
Record ID := { ID_string : string }.

(** [TTLDatastoreOptions]. *)
Record TTLDatastoreOptions := {
  ttl : Z;
  frequency : Z;
}.

(** Modelled from the spec: the TTL datastore of [@textile/datastore-ttl],
    which is not part of the sources at hand.  It keeps, for every key, the
    value and the time at which the entry expires, in milliseconds; the
    entries come from the datastore it is built over. *)
Record TTLDatastore := {
  ttl_entries : gmap string (Buffer * Z);
  ttl_options : TTLDatastoreOptions;
}.

(** Modelled from the spec: [new TTLDatastore(store, meta, options)], where
    [entries] is what the store and its [ttl] namespace hold. *)
Definition TTLDatastore_new (entries : gmap string (Buffer * Z))
    (options : TTLDatastoreOptions) : TTLDatastore :=
  {| ttl_entries := entries; ttl_options := options |}.

(** Modelled from the spec: [has], [expiration], [query] and the commit of
    a [batch(ttl)] of the TTL datastore.  A put of the batch makes the entry
    expire [ttl] after the time of the call. *)
Definition ttl_has (key : string) (d : TTLDatastore) : bool :=
  bool_decide (is_Some (ttl_entries d !! key)).

Definition ttl_expiration (key : string) (d : TTLDatastore) : Result Z :=
  match ttl_entries d !! key with
  | Some (_, exp) => Ok exp
  | None => Throw notFoundError
  end.

Definition ttl_query (prefix : string) (d : TTLDatastore) : list (string * Buffer) :=
  map (fun kv => (fst kv, fst (snd kv)))
      (filter (fun kv => String.prefix prefix (fst kv) = true) (map_to_list (ttl_entries d))).

Definition ttl_apply_op (now ttl : Z) (entries : gmap string (Buffer * Z)) (op : BatchOp)
    : gmap string (Buffer * Z) :=
  match op with
  | BatchPut k v => <[k := (v, now + ttl)]> entries
  | BatchDelete k => delete k entries
  end.

Definition ttl_commit (now ttl : Z) (batch : list BatchOp) (d : TTLDatastore) : TTLDatastore :=
  {| ttl_entries := fold_left (ttl_apply_op now ttl) batch (ttl_entries d);
     ttl_options := ttl_options d |}.

Module AddrBook.

(** What the book's [EventEmitter] is asked to emit. *)
Inductive AddrBookEvent : Type :=
| newAddr (log : string) (addrs : list Multiaddr).

(** The fields of an [AddrBook], and the notifications emitted so far. *)
Record t := {
  book_datastore : TTLDatastore;
  book_emitted : list AddrBookEvent;
}.

(** [getKey(id, log)]. *)
Definition getKey (id : ID) (log : string) : string :=
  Key.child (Key.new (ID_string id)) (Key.new log).

(** [a || b] on numbers, where [a] may be [undefined]. *)
Definition number_or (a : option Z) (b : Z) : Z :=
  match a with
  | Some v => if v =? 0 then b else v
  | None => b
  end.

(** [new AddrBook(datastore, opts)].  [Duration.Hour] is a constant of the
    TTL datastore package; [options] is computed and not used. *)
Definition constructor (Duration_Hour : Z) (datastore : gmap string (Buffer * Z))
    (opts : option TTLDatastoreOptions) : t :=
  let options :=
    {| ttl := number_or (ttl <$> opts) Duration_Hour;
       frequency := number_or (frequency <$> opts) (Duration_Hour * 2) |} in
  {| book_datastore := TTLDatastore_new datastore {| frequency := 20; ttl := 100 |};
     book_emitted := [] |}.

Definition emit (ev : AddrBookEvent) : M t unit :=
  fun b => (Ok tt, {| book_datastore := book_datastore b;
                      book_emitted := book_emitted b ++ [ev] |}).

(** [batch.commit()] of a [batch(ttl)] at time [now]. *)
Definition commit (now ttl : Z) (batch : list BatchOp) : M t unit :=
  fun b => (Ok tt, {| book_datastore := ttl_commit now ttl batch (book_datastore b);
                      book_emitted := book_emitted b |}).

(** The loop over the stored entries, when no address is given. *)
Fixpoint put_refresh (ttl : Z) (entries : list (string * Buffer)) (batch : list BatchOp)
    : list BatchOp :=
  match entries with
  | [] => batch
  | (key, value) :: rest =>
      if ttl <=? 0 then put_refresh ttl rest (batch ++ [BatchDelete key])
      else put_refresh ttl rest (batch ++ [BatchPut key value])
  end.

(** The loop over the given addresses; [now] is [Date.now()]. *)
Fixpoint put_addrs (now ttl : Z) (log : string) (baseKey : string)
    (all_addrs addrs : list Multiaddr) (batch : list BatchOp) : M t (list BatchOp) :=
  match addrs with
  | [] => ret batch
  | addr :: rest =>
      let key := Key.child baseKey (Key.new (Multiaddr_toString addr)) in
      if ttl <=? 0 then put_addrs now ttl log baseKey all_addrs rest (batch ++ [BatchDelete key])
      else
        has <- gets (fun b => ttl_has key (book_datastore b)) ;;
        if has : bool then
          exp <- (fun b => (ttl_expiration key (book_datastore b), b)) ;;
          if exp <? now + ttl
          then put_addrs now ttl log baseKey all_addrs rest
                 (batch ++ [BatchPut key (Multiaddr_buffer addr)])
          else put_addrs now ttl log baseKey all_addrs rest batch
        else
          emit (newAddr log all_addrs) ;;;
          put_addrs now ttl log baseKey all_addrs rest
            (batch ++ [BatchPut key (Multiaddr_buffer addr)])
  end.

(** [put(id, log, ttl, ...addrs)] at time [now]. *)
Definition put (now : Z) (id : ID) (log : string) (ttl : Z) (addrs : list Multiaddr)
    : M t unit :=
  let baseKey := getKey id log in
  match addrs with
  | [] =>
      entries <- gets (fun b => ttl_query (Key.toString baseKey) (book_datastore b)) ;;
      commit now ttl (put_refresh ttl entries [])
  | _ :: _ =>
      batch <- put_addrs now ttl log baseKey addrs addrs [] ;;
      commit now ttl batch
  end.

(** The log a key of the book is filed under:
    [key.reverse().parent().baseNamespace().toString()]. *)
Definition logOfKey (key : string) : string :=
  Key.baseNamespace (Key.parent (Key.reverse key)).

(** [logs(id)]: the keys of [query({ keysOnly: true })], mapped to their
    logs and collected in a set. *)
Definition logs (id : ID) (b : t) : gset string :=
  list_to_set (map (fun kv => logOfKey (fst kv)) (ttl_query "" (book_datastore b))).

(** The [multiaddr] constructor, on the bytes of an address. *)
Class MultiaddrCodec := {
  multiaddr : Buffer -> Result Multiaddr;
}.

(** [ID.fromEncoded]. *)
Class IDCodec := {
  fromEncoded : string -> Result ID;
}.

(** The loop of [get]: the addresses pushed so far and the entries left. *)
Fixpoint get_loop `{MultiaddrCodec} (entries : list (string * Buffer))
    (addrs : list Multiaddr) : Result (list Multiaddr) :=
  match entries with
  | [] => Ok addrs
  | (key, value) :: rest =>
      match multiaddr value with
      | Ok addr => get_loop rest (addrs ++ [addr])
      | Throw err => Throw err
      end
  end.

(** [get(id, log)]. *)
Definition get `{MultiaddrCodec} (id : ID) (log : string) : M t (list Multiaddr) :=
  entries <- gets (fun b => ttl_query (Key.toString (getKey id log)) (book_datastore b)) ;;
  lift (get_loop entries []).

(** The thread a key of the book is filed under:
    [key.reverse().baseNamespace().toString()]. *)
Definition threadOfKey (key : string) : string :=
  Key.baseNamespace (Key.reverse key).

(** The loop of [threads].  The identifiers are objects made one per key,
    so the set holds them all, in the order of the keys. *)
Fixpoint threads_loop `{IDCodec} (entries : list (string * Buffer)) (ids : list ID)
    : Result (list ID) :=
  match entries with
  | [] => Ok ids
  | (key, _) :: rest =>
      match fromEncoded (threadOfKey key) with
      | Ok id => threads_loop rest (ids ++ [id])
      | Throw err => Throw err
      end
  end.

(** [threads()]. *)
Definition threads `{IDCodec} : M t (list ID) :=
  entries <- gets (fun b => ttl_query "" (book_datastore b)) ;;
  lift (threads_loop entries []).

(** The loop of [clear]. *)
Fixpoint clear_loop (entries : list (string * Buffer)) (batch : list BatchOp)
    : list BatchOp :=
  match entries with
  | [] => batch
  | (key, _) :: rest => clear_loop rest (batch ++ [BatchDelete key])
  end.

(** [clear(id, log)] at time [now].  The batch is made without a [ttl] and
    falls back on the one of the options; it holds deletes only. *)
Definition clear (now : Z) (id : ID) (log : string) : M t unit :=
  entries <- gets (fun b => ttl_query (Key.toString (getKey id log)) (book_datastore b)) ;;
  default_ttl <- gets (fun b => ttl (ttl_options (book_datastore b))) ;;
  commit now default_ttl (clear_loop entries []).


End AddrBook.

(** ** The [Cache] decorator *)

Module Cache.

(** A property of an options object: missing, or there with a value that
    may be [undefined]. *)
Inductive Field (A : Type) : Type :=
| Missing
| Present (v : option A).
Arguments Missing {A}.
Arguments Present {A} v.

(** [CacheOptions]. *)
Record CacheOptions := { duration : Field Z }.

Definition defaultValues : CacheOptions := {| duration := Present (Some 3000) |}.

(** One property of [{ ...defaults, ...params }]: a property that
    [params] has wins, whatever its value. *)
Definition spread {A} (defaults params : Field A) : Field A :=
  match params with
  | Missing => defaults
  | Present v => Present v
  end.

(** [params = { ...defaultValues, ...params }]. *)
Definition merge (params : CacheOptions) : CacheOptions :=
  {| duration := spread (duration defaultValues) (duration params) |}.

(** Reading a property: [undefined] when it is missing. *)
Definition read {A} (f : Field A) : option A :=
  match f with
  | Missing => None
  | Present v => v
  end.

Inductive FuncType : Type :=
| promise
| value_type.

(** What a call returns: a value, or a promise with its outcome. *)
Inductive Returned (V : Type) : Type :=
| Plain (v : V)
| PromiseOf (outcome : Result V).
Arguments Plain {V} v.
Arguments PromiseOf {V} outcome.

(** The variables of the closure: [value], [cacheUntil] (a time in
    milliseconds) and [funcType]. *)
Record State (V : Type) := {
  value : option V;
  cacheUntil : option Z;
  funcType : option FuncType;
}.
Arguments value {V} s.
Arguments cacheUntil {V} s.
Arguments funcType {V} s.

Definition init {V} : State V :=
  {| value := None; cacheUntil := None; funcType := None |}.

Section Decorator.

Variable V : Type.

(** Truthiness of a value. *)
Variable truthy : V -> bool.

(** The merged options. *)
Variable params : CacheOptions.

(** [cacheValue(val, now)]. *)
Definition cacheValue (val : V) (now : Z) (s : State V) : State V :=
  {| value := Some val;
     cacheUntil :=
       match read (duration params) with
       | Some d => if d =? 0 then None else Some (now + d)
       | None => None
       end;
     funcType := funcType s |}.

(** [value && cacheUntil && cacheUntil > now]: the value to serve. *)
Definition fresh (now : Z) (s : State V) : option V :=
  match value s, cacheUntil s with
  | Some v, Some until => if truthy v && (now <? until) then Some v else None
  | _, _ => None
  end.

Definition set_funcType (ft : FuncType) (s : State V) : State V :=
  {| value := value s; cacheUntil := cacheUntil s; funcType := Some ft |}.

(** The function put in place of the method, called at time [now];
    [originalFunc] returns, throws, or gives a promise. *)
Definition call (now : Z) (originalFunc : unit -> Result (Returned V)) (s : State V)
    : Result (Returned V) * State V :=
  match fresh now s with
  | Some v =>
      match funcType s with
      | Some promise => (Ok (PromiseOf (Ok v)), s)
      | _ => (Ok (Plain v), s)
      end
  | None =>
      match originalFunc tt with
      | Throw err => (Throw err, s)
      | Ok (PromiseOf outcome) =>
          let s := set_funcType promise s in
          match outcome with
          | Ok v => (Ok (PromiseOf (Ok v)), cacheValue v now s)
          | Throw err => (Ok (PromiseOf (Throw err)), s)
          end
      | Ok (Plain v) =>
          let s := set_funcType value_type s in
          (Ok (Plain v), cacheValue v now s)
      end
  end.

(** Calls one after the other, each at its time with what the method
    does then; the results, in order, and the closure at the end. *)
Fixpoint run (calls : list (Z * (unit -> Result (Returned V)))) (s : State V)
    : list (Result (Returned V)) * State V :=
  match calls with
  | [] => ([], s)
  | (now, originalFunc) :: rest =>
      let (r, s') := call now originalFunc s in
      let (rs, s'') := run rest s' in
      (r :: rs, s'')
  end.

End Decorator.

(** [Cache(params)] applied to a method: the merged options are fixed and
    the closure starts empty. *)
Definition decorate {V} (truthy : V -> bool) (params : CacheOptions)
    (calls : list (Z * (unit -> Result (Returned V)))) : list (Result (Returned V)) :=
  fst (run V truthy (merge params) calls init).

End Cache.


(** ** A small instance: notes

    A codec over byte-string notes, a CBOR stand-in and a schema compiler
    that accepts every schema, to run the store on concrete inputs. *)

Module Notes.

Inductive Change : Type :=
| Write (text : Buffer)
| Append (text : Buffer)
| Erase
| Touch.

Record NoteEvent := {
  ev_collection : string;
  ev_entityID : string;
  ev_change : Change;
}.

#[global] Instance NoteEvent_Event : Event NoteEvent := {
  collection := ev_collection;
  entityID := ev_entityID;
}.

Definition note_action (e : NoteEvent) (ty : ActionType) : ReduceAction :=
  {| action_type := ty;
     action_collection := ev_collection e;
     action_entityID := ev_entityID e |}.

(** [Write] creates the note, [Append] saves the old text followed by the
    new one, [Erase] deletes, [Touch] reports a type outside [Action.Type]. *)
Definition note_reduce (old : option Buffer) (e : NoteEvent) : Result (ReduceState Buffer) :=
  match ev_change e with
  | Write text => Ok {| state := Some text; action := note_action e Create |}
  | Append text => Ok {| state := Some (default [] old ++ text); action := note_action e Save |}
  | Erase => Ok {| state := None; action := note_action e Delete |}
  | Touch => Ok {| state := old; action := note_action e (UnknownType 3) |}
  end.

#[global] Instance Notes_Codec : EventCodec NoteEvent Buffer := {
  codec_reduce := note_reduce;
}.

#[global] Instance Notes_Cbor : Cbor (option Buffer) := {
  encode v := match v with None => [xf7] | Some text => x40 :: text end;
  decode buf :=
    match buf with
    | [xf7] => Ok None
    | x40 :: text => Ok (Some text)
    | _ => Throw (mkError "Unexpected data")
    end;
}.

#[global] Instance Schema_Cbor : Cbor string := {
  encode s := x60 :: list_byte_of_string s;
  decode buf :=
    match buf with
    | x60 :: text => Ok (string_of_list_byte text)
    | _ => Throw (mkError "Unexpected data")
    end;
}.

#[global] Instance Schema_Compiler : SchemaCompiler string string := {
  compile s := Ok s;
}.

#[global] Instance Bytes_ThreadID : ThreadIDCodec Buffer := {
  fromBytes buf := match buf with [] => Throw (mkError "Invalid ID") | _ => Ok buf end;
}.

(** The store of these notes over a datastore [D]. *)
Abbreviation NoteStore D := (Store D string string).

Definition empty_store : NoteStore MemoryDatastore := Build_Store ∅ ∅ ∅ [].

Definition text (s : string) : Buffer := list_byte_of_string s.

Definition ev (id : string) (c : Change) : NoteEvent :=
  {| ev_collection := "notes"; ev_entityID := id; ev_change := c |}.

End Notes.

Example notes_reduce_one :
  let st := snd (reduce [Notes.ev "n1" (Notes.Write (Notes.text "ab"))] Notes.empty_store) in
  ds_get "/collection/notes/n1" (datastore st) = Ok (x40 :: Notes.text "ab")
  /\ emitted st
     = [stateChange [{| action_type := Create;
                        action_collection := "notes";
                        action_entityID := "n1" |}]].
Proof. vm_compute. split; reflexivity. Qed.

(** ** What one batch does, event by event *)

Definition Result_bind {A B} (r : Result A) (k : A -> Result B) : Result B :=
  match r with
  | Ok a => k a
  | Throw err => Throw err
  end.

Fixpoint Result_mapM {A B} (f : A -> Result B) (l : list A) : Result (list B) :=
  match l with
  | [] => Ok []
  | x :: rest =>
      Result_bind (f x) (fun y =>
      Result_bind (Result_mapM f rest) (fun ys => Ok (y :: ys)))
  end.

(** What a get of the key answers once the operation has been applied. *)
Definition cell_of_op (op : BatchOp) : Result Buffer :=
  match op with
  | BatchPut _ v => Ok v
  | BatchDelete _ => Throw notFoundError
  end.

Section ReduceSpec.

Context {D : Type} `{Datastore D}.
Context {E T : Type} `{Event E} `{EventCodec E T} `{Cbor (option T)}.

(** The prior state of an entity, from what a get of its key answers:
    the decoded state, and absence when the key is not found. *)
Definition prior_state (cell : Result Buffer) : Result (option T) :=
  match Result_bind cell decode with
  | Ok s => Ok s
  | Throw err =>
      if String.eqb (Error_toString err) "Error: Not Found" then Ok None else Throw err
  end.

(** One turn of the loop of [reduce] on the datastore [d]: the operation
    it adds to the batch and the action it reports. *)
Definition event_effect (d : D) (event : E) : Result (BatchOp * ReduceAction) :=
  let key := eventKey event in
  Result_bind (prior_state (ds_get key d)) (fun oldState =>
  Result_bind (codec_reduce oldState event) (fun r =>
  match action_type (action r) with
  | Delete => Ok (BatchDelete key, action r)
  | Create =>
      if bool_decide (is_Some oldState) then Throw (mkError "Existing Entity")
      else Ok (BatchPut key (encode (state r)), action r)
  | Save => Ok (BatchPut key (encode (state r)), action r)
  | UnknownType _ => Throw (mkError "Unknown Operation")
  end)).

(** The step of the specification: the codec reduces the event against
    the prior state; a [Delete] removes the key, a [Create] or a [Save]
    writes the encoded new state. *)
Definition spec_step (cell : Result Buffer) (event : E) : Result (Result Buffer) :=
  Result_bind (prior_state cell) (fun oldState =>
  Result_bind (codec_reduce oldState event) (fun r =>
  match action_type (action r) with
  | Delete => Ok (Throw notFoundError)
  | Create | Save => Ok (Ok (encode (state r)))
  | UnknownType _ => Throw (mkError "Unknown Operation")
  end)).

(** The left fold of the specification over the events of one entity. *)
Definition spec_fold (cell : Result Buffer) (events : list E) : Result (Result Buffer) :=
  fold_left (fun acc event => Result_bind acc (fun c => spec_step c event)) events (Ok cell).

(** The events of a batch that are about the entity kept under [key]. *)
Definition events_of (key : string) (events : list E) : list E :=
  filter (fun event => eventKey event = key) events.


End ReduceSpec.

(** ** Plain namespaces *)

(** A namespace that is not empty and holds no slash. *)
Definition plain (x : string) : Prop :=
  x <> EmptyString /\ Forall (fun c => c <> Key.pathSep) (list_ascii_of_string x).

(** ** What one put does, address by address *)

Section PutSpec.

Variables (now ttl : Z) (baseKey : string) (d : TTLDatastore).

Definition addr_key (addr : Multiaddr) : string :=
  Key.child baseKey (Key.new (Multiaddr_toString addr)).

(** The operations one turn of the loop of [put] adds to the batch. *)
Definition addr_ops (addr : Multiaddr) : list BatchOp :=
  let key := addr_key addr in
  if ttl <=? 0 then [BatchDelete key]
  else
    match ttl_entries d !! key with
    | Some (_, exp) =>
        if exp <? now + ttl then [BatchPut key (Multiaddr_buffer addr)] else []
    | None => [BatchPut key (Multiaddr_buffer addr)]
    end.

(** Whether the turn emits [newAddr]. *)
Definition addr_is_new (addr : Multiaddr) : bool :=
  negb (ttl <=? 0) && negb (ttl_has (addr_key addr) d).

End PutSpec.

(** The batch that [put] commits. *)
Definition put_batch (now : Z) (id : ID) (log : string) (ttl : Z) (addrs : list Multiaddr)
    (b : AddrBook.t) : list BatchOp :=
  match addrs with
  | [] =>
      AddrBook.put_refresh ttl (ttl_query (Key.toString (AddrBook.getKey id log)) (AddrBook.book_datastore b)) []
  | _ :: _ => flat_map (addr_ops now ttl (AddrBook.getKey id log) (AddrBook.book_datastore b)) addrs
  end.

Definition is_put (op : BatchOp) : Prop :=
  match op with BatchPut _ _ => True | BatchDelete _ => False end.

Definition is_delete (op : BatchOp) : Prop :=
  match op with BatchPut _ _ => False | BatchDelete _ => True end.

(** A put of the batch does not come before the expiration on record. *)
Definition extends_entry (now ttl : Z) (orig : gmap string (Buffer * Z)) (op : BatchOp) : Prop :=
  match op with
  | BatchPut k _ => forall v exp, orig !! k = Some (v, exp) -> exp <= now + ttl
  | BatchDelete _ => False
  end.

(** The claim that a put never shortens the time to live of an address
    stored for the log, here any entry whose key begins with the key of
    the log. *)
Definition put_never_shortens (now : Z) (id : ID) (log : string) (ttl : Z)
    (addrs : list Multiaddr) (b : AddrBook.t) : Prop :=
  forall b', AddrBook.put now id log ttl addrs b = (Ok tt, b') ->
  forall key v exp,
    ttl_entries (AddrBook.book_datastore b) !! key = Some (v, exp) ->
    String.prefix (Key.toString (AddrBook.getKey id log)) key = true ->
    exists v' exp',
      ttl_entries (AddrBook.book_datastore b') !! key = Some (v', exp') /\ exp <= exp'.


(** ** Concrete stores and books *)

(** A store that holds the note [n1]. *)
Definition store_with_n1 : Notes.NoteStore MemoryDatastore :=
  Build_Store ∅ ∅ {[ "/collection/notes/n1" := x40 :: Notes.text "a" ]} [].

(** A store in which the collection [Person] is registered. *)
Definition store_with_person : Notes.NoteStore MemoryDatastore :=
  snd (registerSchema "Person" "{name: string}" Notes.empty_store).

(** A store over a datastore whose reads fail. *)
Definition store_on_failing_datastore : Notes.NoteStore FailingDatastore :=
  Build_Store ∅ ∅
    {| failing_store := {[ "/store/threadid" := [x01; x55] ]};
       failing_error := mkError "Database is not open" |}
    [].

Definition thread1 : ID := {| ID_string := "thread1" |}.
Definition thread2 : ID := {| ID_string := "thread2" |}.

Definition addr1 : Multiaddr :=
  {| Multiaddr_toString := "/ip4/10.0.0.1/tcp/4001";
     Multiaddr_buffer := [x04; x0a; x00; x00; x01; x06; x0f; xa1] |}.

Definition addr2 : Multiaddr :=
  {| Multiaddr_toString := "/ip4/10.0.0.2/tcp/4001";
     Multiaddr_buffer := [x04; x0a; x00; x00; x02; x06; x0f; xa1] |}.

(** A book that holds [addr1] for the log [log1] of [thread1], expiring
    at time [5000], and [addr2] for the log [log2] of [thread2]. *)
Definition book1 : AddrBook.t :=
  AddrBook.constructor 3600000
    {[ "/thread1/log1/ip4/10.0.0.1/tcp/4001" := (Multiaddr_buffer addr1, 5000);
       "/thread2/log2/ip4/10.0.0.2/tcp/4001" := (Multiaddr_buffer addr2, 7000) ]}
    None.

(** ** Concrete services, codecs and cached methods *)

#[global] Instance Bytes_ThreadIDBytes : ThreadIDBytes Buffer := {
  bytes id := id;
}.

(** A thread service that accepts every thread. *)
#[global] Instance accepting_service : ThreadService Buffer string := {
  createThread id := Ok "thread info";
  addThread info := Ok tt;
}.

(** A thread service that creates threads and refuses to add them. *)
Definition refusing_service : ThreadService Buffer string := {|
  createThread id := Ok "thread info";
  addThread info := Throw (mkError "Service unavailable");
|}.

(** A schema compiler that refuses the empty schema. *)
Definition strict_compiler : SchemaCompiler string string := {|
  compile s := if String.eqb s "" then Throw (mkError "schema is invalid") else Ok s;
|}.

(** A store that holds a thread identifier. *)
Definition store_with_thread : Notes.NoteStore MemoryDatastore :=
  Build_Store ∅ ∅ {[ "/store/threadid" := [x01; x55] ]} [].


Fixpoint Buffer_eqb (a b : Buffer) : bool :=
  match a, b with
  | [], [] => true
  | x :: a', y :: b' => Byte.eqb x y && Buffer_eqb a' b'
  | _, _ => false
  end.

(** The addresses that [addr1] and [addr2] are the bytes of. *)
#[global] Instance known_multiaddrs : AddrBook.MultiaddrCodec := {
  AddrBook.multiaddr buf :=
    if Buffer_eqb buf (Multiaddr_buffer addr1) then Ok addr1
    else if Buffer_eqb buf (Multiaddr_buffer addr2) then Ok addr2
    else Throw (mkError "Invalid address buffer");
}.

#[global] Instance string_IDs : AddrBook.IDCodec := {
  AddrBook.fromEncoded s := Ok {| ID_string := s |};
}.

(** Truthiness of a number. *)
Definition truthy_number (n : Z) : bool := negb (n =? 0).

(** A method that returns the number [n], and one that gives a promise
    of it. *)
Definition returns (n : Z) : unit -> Result (Cache.Returned Z) :=
  fun _ => Ok (Cache.Plain n).
Definition resolves (n : Z) : unit -> Result (Cache.Returned Z) :=
  fun _ => Ok (Cache.PromiseOf (Ok n)).
Definition rejects (msg : string) : unit -> Result (Cache.Returned Z) :=
  fun _ => Ok (Cache.PromiseOf (Throw (mkError msg))).


(** * Auxiliary facts *)

Lemma Result_mapM_Forall2 {A B} (f : A -> Result B) (l : list A) (l' : list B) :
  Result_mapM f l = Ok l' -> Forall2 (fun x y => f x = Ok y) l l'.
Proof.
  revert l'. induction l as [|x rest IH]; intros l'; cbn.
  - intros [= <-]. constructor.
  - destruct (f x) as [y|] eqn:Hx; cbn; [|discriminate].
    destruct (Result_mapM f rest) as [ys|]; cbn; [|discriminate].
    intros [= <-]. constructor; auto.
Qed.

Lemma Result_mapM_app {A B} (f : A -> Result B) (l1 l2 : list A) :
  Result_mapM f (l1 ++ l2)
  = Result_bind (Result_mapM f l1) (fun ys1 =>
    Result_bind (Result_mapM f l2) (fun ys2 => Ok (ys1 ++ ys2))).
Proof.
  induction l1 as [|x rest IH]; cbn.
  - destruct (Result_mapM f l2); reflexivity.
  - destruct (f x); cbn; [|reflexivity].
    rewrite IH. destruct (Result_mapM f rest); cbn; [|reflexivity].
    destruct (Result_mapM f l2); reflexivity.
Qed.

Lemma filter_singleton_split {A} (P : A -> Prop) `{forall x, Decision (P x)}
    (l : list A) (x : A) :
  filter P l = [x] ->
  exists pre post, l = pre ++ x :: post /\ filter P pre = [] /\ filter P post = [].
Proof.
  induction l as [|y rest IH]; [discriminate|].
  destruct (decide (P y)) as [Hy|Hy].
  - rewrite filter_cons_True by done. intros [= -> Hrest].
    exists [], rest. by rewrite filter_nil.
  - rewrite filter_cons_False by done. intros Hrest.
    destruct (IH Hrest) as (pre & post & -> & Hpre & Hpost).
    exists (y :: pre), post. by rewrite filter_cons_False.
Qed.

(** ** Keys *)

Lemma append_nil_r (s : string) : String.append s EmptyString = s.
Proof.
  induction s as [|c s IH]; [reflexivity|].
  change (String c (String.append s EmptyString) = String c s). by rewrite IH.
Qed.

Lemma append_assoc (s1 s2 s3 : string) :
  String.append (String.append s1 s2) s3 = String.append s1 (String.append s2 s3).
Proof.
  induction s1 as [|c s1 IH]; [reflexivity|].
  change (String c (String.append (String.append s1 s2) s3)
          = String c (String.append s1 (String.append s2 s3))).
  by rewrite IH.
Qed.

Lemma list_ascii_of_string_append (s1 s2 : string) :
  list_ascii_of_string (String.append s1 s2)
  = list_ascii_of_string s1 ++ list_ascii_of_string s2.
Proof.
  induction s1 as [|c s1 IH]; [reflexivity|].
  change (c :: list_ascii_of_string (String.append s1 s2)
          = c :: (list_ascii_of_string s1 ++ list_ascii_of_string s2)).
  by rewrite IH.
Qed.

Lemma split_aux_plain (x s cur : string) :
  Forall (fun c => c <> Key.pathSep) (list_ascii_of_string x) ->
  Key.split_aux Key.pathSep (String.append x s) cur
  = Key.split_aux Key.pathSep s (String.append cur x).
Proof.
  revert cur. induction x as [|c x IH]; intros cur Hx.
  - change (String.append EmptyString s) with s. by rewrite append_nil_r.
  - change (String.append (String c x) s) with (String c (String.append x s)).
    cbn [Key.split_aux].
    cbn in Hx. inversion Hx as [|? ? Hc Hrest]; subst.
    destruct (Ascii.eqb_spec c Key.pathSep) as [->|_]; [done|].
    rewrite IH by done. rewrite append_assoc. reflexivity.
Qed.

Lemma split_aux_join (l : list string) :
  Forall plain l ->
  forall cur,
    Key.split_aux Key.pathSep (Key.join l) cur
    = match l with [] => [cur] | x :: rest => String.append cur x :: rest end.
Proof.
  induction l as [|x rest IH]; intros Hl cur; [reflexivity|].
  inversion Hl as [|? ? [_ Hx] Hrest]; subst.
  destruct rest as [|y rest].
  - cbn [Key.join]. rewrite <- (append_nil_r x) at 1.
    by rewrite split_aux_plain.
  - cbn [Key.join]. rewrite split_aux_plain by done. cbn.
    rewrite (IH Hrest). done.
Qed.

Lemma strip_trailing_plain_end (chars : list ascii) (c : ascii) :
  c <> Key.pathSep -> Key.strip_trailing (rev (chars ++ [c])) = rev (chars ++ [c]).
Proof.
  intros Hc. rewrite rev_app_distr. cbn.
  destruct (rev chars); [reflexivity|].
  by destruct (Ascii.eqb_spec c Key.pathSep).
Qed.

Lemma join_chars (l : list string) :
  Forall plain l -> l <> [] ->
  exists c0 s chars c,
    Key.join l = String c0 s /\ c0 <> Key.pathSep
    /\ list_ascii_of_string (Key.join l) = chars ++ [c] /\ c <> Key.pathSep.
Proof.
  induction l as [|x rest IH]; intros Hl Hne; [done|].
  inversion Hl as [|? ? [Hx0 Hx] Hrest]; subst.
  destruct x as [|c0 x]; [done|].
  cbn in Hx. inversion Hx as [|? ? Hc0 Hx']; subst.
  destruct rest as [|y rest].
  - cbn [Key.join]. exists c0, x.
    destruct (exists_last (l := list_ascii_of_string (String c0 x))) as (chars & c & Heq);
      [done|].
    exists chars, c. repeat split; [done|done|].
    assert (Hin : In c (list_ascii_of_string (String c0 x)))
      by (rewrite Heq; apply in_or_app; right; by left).
    rewrite List.Forall_forall in Hx. by apply Hx.
  - destruct (IH Hrest) as (c1 & s1 & chars & c & _ & _ & Hchars & Hc); [done|].
    cbn [Key.join]. cbn [Key.join] in Hchars.
    exists c0, (String.append x (String Key.pathSep (Key.join (y :: rest)))).
    exists (list_ascii_of_string (String c0 x) ++ Key.pathSep :: chars), c.
    repeat split; [done| |done].
    change (String.append (String c0 x) ?t) with (String c0 (String.append x t)).
    cbn [list_ascii_of_string]. rewrite list_ascii_of_string_append.
    cbn [list_ascii_of_string Key.join]. rewrite Hchars.
    by rewrite <- !app_assoc, <- !app_comm_cons.
Qed.

(** A path of plain namespaces is clean once a slash is put before it. *)
Lemma new_join (l : list string) :
  Forall plain l -> l <> [] -> Key.new (Key.join l) = String Key.pathSep (Key.join l).
Proof.
  intros Hl Hne.
  destruct (join_chars l Hl Hne) as (c0 & s & chars & c & Hjoin & Hc0 & Hchars & Hc).
  unfold Key.new, Key.clean. rewrite Hjoin.
  destruct (Ascii.eqb_spec c0 Key.pathSep) as [?|_]; [done|].
  rewrite <- Hjoin. cbn [list_ascii_of_string]. rewrite Hchars, app_comm_cons.
  rewrite strip_trailing_plain_end by done. rewrite rev_involutive.
  rewrite <- app_comm_cons, <- Hchars.
  change (Key.pathSep :: list_ascii_of_string (Key.join l))
    with (list_ascii_of_string (String Key.pathSep (Key.join l))).
  apply string_of_list_ascii_of_string.
Qed.

Lemma new_plain (x : string) : plain x -> Key.new x = String Key.pathSep x.
Proof. intros Hx. apply (new_join [x]); [by constructor|done]. Qed.

(** A key made of plain namespaces has these namespaces. *)
Lemma namespaces_withNamespaces (l : list string) :
  Forall plain l -> l <> [] -> Key.namespaces (Key.withNamespaces l) = l.
Proof.
  intros Hl Hne. unfold Key.withNamespaces. rewrite new_join by done.
  unfold Key.namespaces, Key.split, Key.toString. cbn [Key.split_aux].
  rewrite Ascii.eqb_refl. cbn [tail].
  rewrite split_aux_join by done. destruct l; done.
Qed.

Lemma split_aux_nonempty sep s cur : Key.split_aux sep s cur <> [].
Proof.
  revert cur. induction s as [|c s IH]; intros cur; cbn; [done|].
  destruct (Ascii.eqb c sep); [done|apply IH].
Qed.

Lemma split_aux_append sep (s1 s2 : string) : forall cur,
  Key.split_aux sep (String.append s1 s2) cur
  = removelast (Key.split_aux sep s1 cur)
    ++ Key.split_aux sep s2 (List.last (Key.split_aux sep s1 cur) EmptyString).
Proof.
  induction s1 as [|c s1 IH]; intros cur; [reflexivity|].
  change (String.append (String c s1) s2) with (String c (String.append s1 s2)).
  cbn [Key.split_aux]. destruct (Ascii.eqb c sep); [|apply IH].
  rewrite IH. pose proof (split_aux_nonempty sep s1 EmptyString) as Hne.
  destruct (Key.split_aux sep s1 EmptyString) as [|x l]; [done|]. reflexivity.
Qed.

(** The namespaces of a key followed by a path. *)
Lemma namespaces_append (a b : string) :
  Key.namespaces (String.append a (String Key.pathSep b))
  = Key.namespaces a ++ Key.namespaces (String Key.pathSep b).
Proof.
  unfold Key.namespaces, Key.split, Key.toString. rewrite split_aux_append.
  cbn [Key.split_aux]. rewrite Ascii.eqb_refl. cbn [tail].
  pose proof (split_aux_nonempty Key.pathSep a EmptyString) as Hne.
  destruct (Key.split_aux Key.pathSep a EmptyString) as [|x l] eqn:Hsplit; [done|].
  rewrite <- Hsplit at 1 2.
  replace (removelast (Key.split_aux Key.pathSep a "")
           ++ List.last (Key.split_aux Key.pathSep a "") "" :: Key.split_aux Key.pathSep b "")
    with ((removelast (Key.split_aux Key.pathSep a "")
           ++ [List.last (Key.split_aux Key.pathSep a "") ""])
          ++ Key.split_aux Key.pathSep b "") by (by rewrite <- app_assoc).
  rewrite <- app_removelast_last by (by rewrite Hsplit).
  rewrite Hsplit. reflexivity.
Qed.

Lemma strip_trailing_keeps_first (l : list ascii) (x : ascii) :
  exists l', Key.strip_trailing (l ++ [x]) = l' ++ [x].
Proof.
  induction l as [|c l IH]; [by exists []|].
  cbn [app Key.strip_trailing].
  destruct (l ++ [x]) as [|y rest] eqn:Heq; [by destruct l|].
  destruct (Ascii.eqb c Key.pathSep).
  - exact IH.
  - exists (c :: l). by rewrite <- Heq.
Qed.

(** A clean path begins with a slash. *)
Lemma new_leading_slash (s : string) : exists s', Key.new s = String Key.pathSep s'.
Proof.
  unfold Key.new, Key.clean. destruct s as [|c s]; [by exists EmptyString|].
  assert (Hs : exists t, (if Ascii.eqb c Key.pathSep then String c s
                          else String Key.pathSep (String c s)) = String Key.pathSep t).
  { destruct (Ascii.eqb_spec c Key.pathSep) as [->|_]; eauto. }
  destruct Hs as [t ->]. cbn [list_ascii_of_string rev].
  destruct (strip_trailing_keeps_first (rev (list_ascii_of_string t)) Key.pathSep)
    as [l' ->].
  rewrite rev_app_distr. cbn. eauto.
Qed.

(** The log of a key [/<thread>/<log>/<address>]. *)
Lemma logOfKey_entry (key tid log : string) (rest : list string) :
  Key.namespaces key = tid :: log :: rest ->
  rest <> [] ->
  Forall plain (tid :: log :: rest) ->
  AddrBook.logOfKey key = log.
Proof.
  intros Hns Hrest Hplain.
  assert (Hrev : Key.namespaces (Key.reverse key) = rev rest ++ [log; tid]).
  { unfold Key.reverse. rewrite Hns, namespaces_withNamespaces.
    - cbn. by rewrite <- !app_assoc.
    - by apply Forall_rev.
    - cbn. by destruct (rev rest). }
  unfold AddrBook.logOfKey, Key.parent. rewrite Hrev.
  assert (Hlen : (length (rev rest ++ [log; tid]) =? 1)%nat = false).
  { apply Nat.eqb_neq. rewrite length_app. cbn. lia. }
  rewrite Hlen.
  assert (Hremove : removelast (rev rest ++ [log; tid]) = rev rest ++ [log]).
  { change [log; tid] with ([log] ++ [tid]). rewrite app_assoc. apply removelast_last. }
  rewrite Hremove.
  change (Key.new (Key.join ?l)) with (Key.withNamespaces l).
  unfold Key.baseNamespace. rewrite namespaces_withNamespaces.
  - apply last_last.
  - apply Forall_app. inversion Hplain as [|? ? ? Hp]; subst.
    inversion Hp; subst. split; [by apply Forall_rev|by constructor].
  - by destruct (rev rest).
Qed.

(** ** Batches *)

Section CommitFacts.

Context {D : Type} `{DatastoreLaws D}.

Lemma batch_puts_app (ops1 ops2 : list BatchOp) :
  batch_puts (ops1 ++ ops2) = batch_puts ops1 ++ batch_puts ops2.
Proof. apply List.filter_app. Qed.

Lemma batch_deletes_app (ops1 ops2 : list BatchOp) :
  batch_deletes (ops1 ++ ops2) = batch_deletes ops1 ++ batch_deletes ops2.
Proof. apply List.filter_app. Qed.

Lemma Forall_batch_puts (P : BatchOp -> Prop) (ops : list BatchOp) :
  Forall P ops -> Forall P (batch_puts ops).
Proof.
  induction 1 as [|op rest Hop _ IH]; cbn; [constructor|].
  destruct (batch_is_put op); [by constructor|done].
Qed.

Lemma Forall_batch_deletes (P : BatchOp -> Prop) (ops : list BatchOp) :
  Forall P ops -> Forall P (batch_deletes ops).
Proof.
  induction 1 as [|op rest Hop _ IH]; cbn; [constructor|].
  destruct (batch_is_put op); cbn; [done|by constructor].
Qed.

Lemma get_apply_op_ne key (op : BatchOp) (d : D) :
  op_key op <> key -> ds_get key (apply_op d op) = ds_get key d.
Proof.
  destruct op; cbn; intros Hne.
  - by apply get_put_ne.
  - by apply get_delete_ne.
Qed.

Lemma get_apply_op_eq (op : BatchOp) (d : D) :
  ds_get (op_key op) (apply_op d op) = cell_of_op op.
Proof. destruct op; cbn; [apply get_put_eq | apply get_delete_eq]. Qed.

Lemma get_fold_untouched key (ops : list BatchOp) (d : D) :
  Forall (fun op => op_key op <> key) ops ->
  ds_get key (fold_left apply_op ops d) = ds_get key d.
Proof.
  revert d. induction ops as [|op rest IH]; intros d Hall; [reflexivity|].
  inversion Hall; subst. cbn. rewrite IH by done.
  by apply get_apply_op_ne.
Qed.

(** A batch leaves alone the keys that none of its operations names. *)
Lemma get_commit_untouched key (ops : list BatchOp) (d : D) :
  Forall (fun op => op_key op <> key) ops ->
  ds_get key (batch_commit ops d) = ds_get key d.
Proof.
  intros Hall. unfold batch_commit.
  rewrite get_fold_untouched by by apply Forall_batch_deletes.
  by apply get_fold_untouched, Forall_batch_puts.
Qed.

(** Deletes leave a key that is absent absent. *)
Lemma get_fold_deletes_keep key (ops : list BatchOp) (d : D) :
  ds_get key d = Throw notFoundError ->
  ds_get key (fold_left apply_op (batch_deletes ops) d) = Throw notFoundError.
Proof.
  revert d. induction ops as [|op rest IH]; intros d Hd; [done|].
  cbn. destruct op as [k v|k]; cbn; [by apply IH|].
  apply IH. destruct (decide (k = key)) as [->|Hne].
  - apply get_delete_eq.
  - by rewrite get_delete_ne.
Qed.

(** A key that the batch deletes is absent after the commit, whatever
    the batch puts under it. *)
Lemma get_commit_deleted key (ops : list BatchOp) (d : D) :
  In (BatchDelete key) ops ->
  ds_get key (batch_commit ops d) = Throw notFoundError.
Proof.
  unfold batch_commit. generalize (fold_left apply_op (batch_puts ops) d).
  induction ops as [|op rest IH]; intros d' Hin; [destruct Hin|].
  destruct Hin as [->|Hin].
  - cbn. apply get_fold_deletes_keep, get_delete_eq.
  - cbn. destruct op as [k v|k]; cbn; by apply IH.
Qed.

(** Of the puts of a key that the batch does not delete, the last one
    decides what the key holds. *)
Lemma get_commit_last_put key value (pre post : list BatchOp) (d : D) :
  Forall (fun op => op_key op <> key) post ->
  ~ In (BatchDelete key) (pre ++ BatchPut key value :: post) ->
  ds_get key (batch_commit (pre ++ BatchPut key value :: post) d) = Ok value.
Proof.
  intros Hpost Hnodel. unfold batch_commit.
  rewrite get_fold_untouched.
  - rewrite batch_puts_app. cbn. rewrite fold_left_app. cbn.
    rewrite get_fold_untouched by by apply Forall_batch_puts.
    apply get_put_eq.
  - apply List.Forall_forall. unfold batch_deletes.
    intros op [Hin Hdel]%List.filter_In Hkey.
    destruct op as [k v|k]; [discriminate|]. cbn in Hkey. subst k. by apply Hnodel.
Qed.

(** The only operation of a batch on a key decides what the key holds. *)
Lemma get_commit_single key (pre post : list BatchOp) (op : BatchOp) (d : D) :
  op_key op = key ->
  Forall (fun op' => op_key op' <> key) pre ->
  Forall (fun op' => op_key op' <> key) post ->
  ds_get key (batch_commit (pre ++ op :: post) d) = cell_of_op op.
Proof.
  intros Hkey Hpre Hpost. destruct op as [k v|k]; cbn in Hkey; subst k; cbn.
  - apply get_commit_last_put; [done|].
    intros [Hin|[Hin|Hin]]%in_app_or; [|discriminate|].
    + by apply (proj1 (List.Forall_forall _ _) Hpre _ Hin).
    + by apply (proj1 (List.Forall_forall _ _) Hpost _ Hin).
  - apply get_commit_deleted, in_or_app. right. by left.
Qed.

End CommitFacts.


(** * Properties of the store *)

Section StoreFacts.

Context {D : Type} `{Datastore D}.
Context {E T JSONSchema Validator ThreadID : Type}.
Context `{Event E} `{EventCodec E T} `{Cbor (option T)} `{Cbor JSONSchema}.
Context `{SchemaCompiler JSONSchema Validator} `{ThreadIDCodec ThreadID}.

Implicit Types (st : Store D JSONSchema Validator) (events : list E).

Lemma readOldState_eq key st :
  readOldState key st = (prior_state (ds_get key (datastore st)), st).
Proof.
  unfold readOldState, try_catch, bind, datastore_get, lift, prior_state, Result_bind.
  destruct (ds_get key (datastore st)) as [buf|err]; cbn.
  - destruct (decode buf) as [s|err]; [reflexivity|].
    destruct (String.eqb _ _); reflexivity.
  - destruct (String.eqb _ _); reflexivity.
Qed.

(** The loop reads the store and does not write it: its outcome is that
    of the turns taken one after the other on the datastore as it was
    when the call began. *)
Lemma reduce_events_eq events : forall batch actions st,
  reduce_events events batch actions st
  = (match Result_mapM (event_effect (datastore st)) events with
     | Ok l => Ok (batch ++ map fst l, actions ++ map snd l)
     | Throw err => Throw err
     end, st).
Proof.
  induction events as [|event rest IH]; intros batch actions st; cbn.
  - by rewrite !app_nil_r.
  - unfold bind at 1. rewrite readOldState_eq.
    unfold event_effect at 1.
    destruct (prior_state (ds_get (eventKey event) (datastore st))) as [oldState|err]; cbn;
      [|reflexivity].
    unfold bind, lift.
    destruct (codec_reduce oldState event) as [r|err]; cbn; [|reflexivity].
    destruct (action_type (action r)); cbn.
    + destruct (bool_decide (is_Some oldState)); cbn; [reflexivity|].
      rewrite IH. destruct (Result_mapM _ rest); cbn; [|reflexivity].
      by rewrite <- !app_assoc.
    + rewrite IH. destruct (Result_mapM _ rest); cbn; [|reflexivity].
      by rewrite <- !app_assoc.
    + rewrite IH. destruct (Result_mapM _ rest); cbn; [|reflexivity].
      by rewrite <- !app_assoc.
    + reflexivity.
Qed.

Lemma reduce_eq events st :
  reduce events st
  = match Result_mapM (event_effect (datastore st)) events with
    | Ok l =>
        (Ok tt, Build_Store (collections st) (schema st)
                  (batch_commit (map fst l) (datastore st))
                  (emitted st ++ [stateChange (map snd l)]))
    | Throw err => (Throw err, st)
    end.
Proof.
  unfold reduce, bind. rewrite reduce_events_eq.
  destruct (Result_mapM _ events); reflexivity.
Qed.

Lemma event_effect_inv (d : D) (event : E) op a :
  event_effect d event = Ok (op, a) ->
  op_key op = eventKey event
  /\ spec_step (ds_get (eventKey event) d) event = Ok (cell_of_op op)
  /\ exists oldState r,
       prior_state (ds_get (eventKey event) d) = Ok oldState
       /\ codec_reduce oldState event = Ok r /\ a = action r.
Proof.
  unfold event_effect, spec_step.
  destruct (prior_state (ds_get (eventKey event) d)) as [oldState|] eqn:Hold; cbn;
    [|discriminate].
  destruct (codec_reduce oldState event) as [r|] eqn:Hr; cbn; [|discriminate].
  destruct (action_type (action r)); try discriminate.
  - destruct (bool_decide (is_Some oldState)); [discriminate|].
    intros [= <- <-]. cbn. eauto 10.
  - intros [= <- <-]. cbn. eauto 10.
  - intros [= <- <-]. cbn. eauto 10.
Qed.

Lemma event_effects_keys (d : D) events l key :
  Result_mapM (event_effect d) events = Ok l ->
  events_of key events = [] ->
  Forall (fun op => op_key op <> key) (map fst l).
Proof.
  intros Hl%Result_mapM_Forall2. unfold events_of.
  induction Hl as [|event [op a] rest l' Hev _ IH]; intros Hnone; cbn [map fst];
    [constructor|].
  destruct (decide (eventKey event = key)) as [Heq|Hne].
  - rewrite filter_cons_True in Hnone by done. discriminate.
  - rewrite filter_cons_False in Hnone by done.
    constructor; [|by apply IH].
    apply event_effect_inv in Hev as [-> _]. done.
Qed.

(** A key that no event of the batch is about holds what it held. *)
Lemma reduce_untouched `{!DatastoreLaws D} events st st' key :
  reduce events st = (Ok tt, st') ->
  events_of key events = [] ->
  ds_get key (datastore st') = ds_get key (datastore st).
Proof.
  rewrite reduce_eq.
  destruct (Result_mapM (event_effect (datastore st)) events) as [l|] eqn:Hl; [|discriminate].
  intros [= <-] Hnone. cbn.
  apply get_commit_untouched. by eapply event_effects_keys.
Qed.



(** A key that exactly one event of the batch is about holds what that
    event leaves of the state that was stored before the call. *)
Lemma reduce_single `{!DatastoreLaws D} pre event post st st' :
  reduce (pre ++ event :: post) st = (Ok tt, st') ->
  events_of (eventKey event) pre = [] ->
  events_of (eventKey event) post = [] ->
  spec_step (ds_get (eventKey event) (datastore st)) event
  = Ok (ds_get (eventKey event) (datastore st')).
Proof.
  rewrite reduce_eq, Result_mapM_app. cbn.
  destruct (Result_mapM _ pre) as [lpre|] eqn:Hlpre; cbn; [|discriminate].
  destruct (event_effect (datastore st) event) as [[op a]|] eqn:Hev; cbn; [|discriminate].
  destruct (Result_mapM _ post) as [lpost|] eqn:Hlpost; cbn; [|discriminate].
  intros [= <-] Hpre Hpost. cbn.
  apply event_effect_inv in Hev as (Hop & Hstep & _).
  rewrite map_app. cbn.
  rewrite (get_commit_single (eventKey event))
    by (done || by eapply event_effects_keys).
  done.
Qed.




Lemma spec_fold_Throw (events : list E) err :
  fold_left (fun acc event => Result_bind acc (fun c => spec_step c event)) events (Throw err)
  = Throw err.
Proof. induction events as [|event rest IH]; [reflexivity|apply IH]. Qed.

Lemma spec_fold_app (cell : Result Buffer) (events1 events2 : list E) :
  spec_fold cell (events1 ++ events2)
  = Result_bind (spec_fold cell events1) (fun c => spec_fold c events2).
Proof.
  unfold spec_fold. rewrite fold_left_app.
  destruct (fold_left _ events1 (Ok cell)); cbn; [reflexivity|apply spec_fold_Throw].
Qed.


(** Batches reduced one call after the other, none of them with two
    events about one entity, leave every entity in the state of the left
    fold of the codec over all its events. *)
Lemma reduce_calls_left_fold `{!DatastoreLaws D} (batches : list (list E)) :
  forall st st',
  Forall (fun events => forall key, (length (events_of key events) <= 1)%nat) batches ->
  reduce_calls batches st = (Ok tt, st') ->
  forall key,
    spec_fold (ds_get key (datastore st)) (events_of key (concat batches))
    = Ok (ds_get key (datastore st')).
Proof.
  induction batches as [|events rest IH]; intros st st' Hsingle Hcalls key.
  - injection Hcalls as <-. reflexivity.
  - inversion Hsingle as [|? ? Hevents Hrest]; subst.
    cbn [reduce_calls] in Hcalls. unfold bind in Hcalls.
    destruct (reduce events st) as [[[]|err] st1] eqn:Hred; [|discriminate].
    cbn [concat]. unfold events_of. rewrite filter_app. fold (events_of key events).
    fold (events_of key (concat rest)). rewrite spec_fold_app.
    assert (Hone : spec_fold (ds_get key (datastore st)) (events_of key events)
                   = Ok (ds_get key (datastore st1))).
    { specialize (Hevents key).
      destruct (events_of key events) as [|event [|? ?]] eqn:Hof; cbn in Hevents; [| |lia].
      - cbn. by rewrite (reduce_untouched events st st1 key).
      - cbn. unfold events_of in Hof.
        pose proof (list_elem_of_filter (fun event => eventKey event = key) events event)
          as Hin.
        rewrite Hof in Hin. destruct (proj1 Hin) as [Hkey _]; [by left|].
        apply filter_singleton_split in Hof as (pre & post & -> & Hpre & Hpost).
        subst key. by apply (reduce_single pre event post). }
    rewrite Hone. cbn. by apply IH.
Qed.

(** C4.  Within one [reduce] call, when the codec's normalized action
    for an event is [Create] and the entity has stored state, the call
    throws, the batch is not committed, so that the datastore, and with
    it every key that the batch is about, is as before the call, and
    nothing is emitted; the error thrown to the caller is the one of an
    existing entity when the loop comes to that event, that is when the
    events before it are carried out without an error. *)
Theorem reduce_create_existing (pre post : list E) (event : E) st buf (s : T) r :
  ds_get (eventKey event) (datastore st) = Ok buf ->
  decode buf = Ok (Some s) ->
  codec_reduce (Some s) event = Ok r ->
  action_type (action r) = Create ->
  (exists err, reduce (pre ++ event :: post) st = (Throw err, st))
  /\ (is_Ok (fst (reduce pre st)) = true ->
      reduce (pre ++ event :: post) st = (Throw (mkError "Existing Entity"), st)).
Proof.
  intros Hget Hdec Hr Hty.
  assert (Hev : event_effect (datastore st) event = Throw (mkError "Existing Entity")).
  { unfold event_effect, prior_state. rewrite Hget. cbn. rewrite Hdec. cbn.
    rewrite Hr. cbn. by rewrite Hty. }
  rewrite !reduce_eq, Result_mapM_app. cbn. rewrite Hev.
  destruct (Result_mapM (event_effect (datastore st)) pre) as [lpre|err]; cbn.
  - split; [by eexists|done].
  - split; [by eexists|discriminate].
Qed.

(** A registration that succeeds puts the collection in the map. *)
Lemma registerSchema_registers name (sch : JSONSchema) st st' :
  registerSchema name sch st = (Ok tt, st') ->
  exists compiled,
    compile sch = Ok compiled
    /\ getCollection name st'
       = Some {| collection_name := name; collection_validator := compiled |}.
Proof.
  unfold registerSchema, addSchema_compile, bind, gets, throw, lift, set_schema,
    set_collections, datastore_has, getCollection.
  cbn. destruct (bool_decide (is_Some (collections st !! name))); [discriminate|].
  destruct (bool_decide (is_Some (schema st !! name))); [discriminate|].
  cbn. destruct (compile sch) as [compiled|]; [|discriminate].
  cbn. intros [= <-]. exists compiled. cbn. by rewrite lookup_insert_eq.
Qed.

(** The datastore is the same after [registerSchema] as before it,
    whatever the call returns. *)
Lemma registerSchema_datastore name (sch : JSONSchema) st :
  datastore (snd (registerSchema name sch st)) = datastore st.
Proof.
  unfold registerSchema, addSchema_compile, bind, gets, throw, lift, set_schema,
    set_collections, datastore_has.
  cbn. destruct (bool_decide (is_Some (collections st !! name))); [reflexivity|].
  destruct (bool_decide (is_Some (schema st !! name))); [reflexivity|].
  cbn. destruct (compile sch); reflexivity.
Qed.

(** C5.  For a name that is in the collection map, [registerSchema]
    throws the error of a name already registered and changes nothing:
    the store (schema registry, datastore and collection map) is as
    before the call, and [getCollection] still returns the collection of
    the first registration. *)
Theorem registerSchema_duplicate name (sch : JSONSchema) st c :
  getCollection name st = Some c ->
  registerSchema name sch st = (Throw (mkError "Already Registered"), st)
  /\ getCollection name (snd (registerSchema name sch st)) = Some c.
Proof.
  unfold getCollection. intros Hc.
  assert (Hcall : registerSchema name sch st = (Throw (mkError "Already Registered"), st)).
  { unfold registerSchema, bind, gets, throw. cbn.
    rewrite bool_decide_eq_true_2; [reflexivity|by eexists]. }
  by rewrite Hcall.
Qed.

(** [threadID] returns the persisted identifier when the key is there. *)
Lemma threadID_found st buf (id : ThreadID) :
  ds_get threadKey (datastore st) = Ok buf ->
  fromBytes buf = Ok id ->
  threadID st = (Ok (Some id), st).
Proof.
  intros Hget Hid. unfold threadID, try_catch, bind, datastore_get, lift, ret.
  by rewrite Hget, Hid.
Qed.

(** [threadID] returns [undefined] whatever the datastore throws. *)
Lemma threadID_caught st err :
  ds_get threadKey (datastore st) = Throw err ->
  threadID (ThreadID := ThreadID) st = (Ok None, st).
Proof.
  intros Hget. unfold threadID, try_catch, bind, datastore_get, lift, ret.
  by rewrite Hget.
Qed.


End StoreFacts.

(** ** The store on concrete inputs *)


(** A delete prevails over a put that is recorded after it: a note that
    one batch erases and then writes is absent after the call. *)
Example reduce_delete_prevails :
  let events := [Notes.ev "n1" Notes.Erase;
                 Notes.ev "n1" (Notes.Write (Notes.text "a"))] in
  fst (reduce events Notes.empty_store) = Ok tt
  /\ ds_get "/collection/notes/n1" (datastore (snd (reduce events Notes.empty_store)))
     = Throw notFoundError.
Proof. split; reflexivity. Qed.



Lemma reduce_create_existing_witness :
  let pre := [Notes.ev "n2" (Notes.Write (Notes.text "c"))] in
  let event := Notes.ev "n1" (Notes.Write (Notes.text "b")) in
  let post := [Notes.ev "n3" Notes.Erase] in
  let buf := x40 :: Notes.text "a" in
  let r := {| state := Some (Notes.text "b"); action := Notes.note_action event Create |} in
  (ds_get (eventKey event) (datastore store_with_n1) = Ok buf
   /\ decode buf = Ok (Some (Notes.text "a"))
   /\ codec_reduce (Some (Notes.text "a")) event = Ok r
   /\ action_type (action r) = Create)
  /\ (exists err, reduce (pre ++ event :: post) store_with_n1 = (Throw err, store_with_n1))
  /\ reduce (pre ++ event :: post) store_with_n1
     = (Throw (mkError "Existing Entity"), store_with_n1).
Proof.
  intros pre event post buf r.
  assert (Hget : ds_get (eventKey event) (datastore store_with_n1) = Ok buf) by reflexivity.
  assert (Hdec : decode buf = Ok (Some (Notes.text "a"))) by reflexivity.
  assert (Hr : codec_reduce (Some (Notes.text "a")) event = Ok r) by reflexivity.
  assert (Hty : action_type (action r) = Create) by reflexivity.
  split; [repeat split; assumption|].
  destruct (reduce_create_existing pre post event store_with_n1 buf (Notes.text "a") r
              Hget Hdec Hr Hty) as [Hthrows Herr].
  split; [exact Hthrows|].
  apply Herr. reflexivity.
Defined.

Lemma registerSchema_duplicate_witness :
  let c := {| collection_name := "Person"; collection_validator := "{name: string}" |} in
  getCollection "Person" store_with_person = Some c
  /\ registerSchema "Person" "{age: number}" store_with_person
     = (Throw (mkError "Already Registered"), store_with_person)
  /\ getCollection "Person" (snd (registerSchema "Person" "{age: number}" store_with_person))
     = Some c.
Proof.
  intros c.
  assert (Hc : getCollection "Person" store_with_person = Some c) by reflexivity.
  split; [exact Hc|].
  exact (registerSchema_duplicate "Person" "{age: number}" store_with_person c Hc).
Defined.

(** C6, at a datastore whose get fails with an error that is not
    [Not Found]: [threadID] returns [undefined] and the error is not
    thrown to the caller, where [reduce] on the same store throws it. *)
Theorem threadID_swallows_datastore_failure :
  ds_get threadKey (datastore store_on_failing_datastore)
  = Throw (mkError "Database is not open")
  /\ String.eqb (Error_toString (mkError "Database is not open")) "Error: Not Found" = false
  /\ threadID (ThreadID := Buffer) store_on_failing_datastore
     = (Ok None, store_on_failing_datastore)
  /\ reduce [Notes.ev "n1" Notes.Erase] store_on_failing_datastore
     = (Throw (mkError "Database is not open"), store_on_failing_datastore).
Proof. repeat split. Qed.

(** C2, at the collection [Person] registered on a store over an empty
    datastore: the registration succeeds and the collection is there, and
    a new store built over the datastore the first one leaves has no
    collection [Person]. *)
Theorem registered_schema_not_recovered :
  let registered := registerSchema "Person" "{name: string}" (Store_new ∅) in
  fst registered = Ok tt
  /\ getCollection "Person" (snd registered : Notes.NoteStore MemoryDatastore)
     = Some {| collection_name := "Person"; collection_validator := "{name: string}" |}
  /\ ds_query (Key.toString schemaKey) (datastore (snd registered)) = []
  /\ getCollection "Person"
       (Store_new (datastore (snd registered)) : Notes.NoteStore MemoryDatastore)
     = None.
Proof. vm_compute. repeat split. Qed.

(** C3, at the collection [Person] registered on a store over an empty
    datastore: the registration succeeds, the key that the put is written
    for is [/store/Person], and nothing is put: the promise of [has] is
    tested, not what it resolves to, so the datastore holds neither
    [/store/schema/Person] nor any other key after the call. *)
Theorem registerSchema_persists_nothing :
  let registered := registerSchema "Person" "{name: string}" Notes.empty_store in
  fst registered = Ok tt
  /\ Key.child baseKey (Key.new "Person") = "/store/Person"
  /\ Key.child schemaKey (Key.new "Person") = "/store/schema/Person"
  /\ ds_has "/store/schema/Person" (datastore (snd registered)) = false
  /\ datastore (snd registered) = ∅.
Proof. vm_compute. repeat split. Qed.

(** * Properties of the address book *)

Section AddrBookFacts.

Import AddrBook.

Implicit Types (b : AddrBook.t) (addrs : list Multiaddr) (ops : list BatchOp).

Lemma put_addrs_cons now ttl log baseKey all_addrs addr rest batch b :
  put_addrs now ttl log baseKey all_addrs (addr :: rest) batch b
  = put_addrs now ttl log baseKey all_addrs rest
      (batch ++ addr_ops now ttl baseKey (book_datastore b) addr)
      (if addr_is_new ttl baseKey (book_datastore b) addr
       then {| book_datastore := book_datastore b;
               book_emitted := book_emitted b ++ [newAddr log all_addrs] |}
       else b).
Proof.
  cbn [put_addrs]. unfold addr_ops, addr_is_new, addr_key, ttl_has.
  destruct (ttl <=? 0); [reflexivity|].
  unfold bind at 1, gets at 1, ttl_has. cbn [negb andb].
  destruct (ttl_entries (book_datastore b) !! _) as [[v exp]|] eqn:Hkey.
  - rewrite bool_decide_eq_true_2 by by eexists.
    unfold bind at 1, ttl_expiration. rewrite Hkey. cbn [negb].
    destruct (exp <? now + ttl); [reflexivity|by rewrite app_nil_r].
  - rewrite bool_decide_eq_false_2 by (by intros [? ?]).
    reflexivity.
Qed.

(** The loop over the addresses reads the datastore and does not write
    it; it returns the operations of its turns and emits one [newAddr]
    for every turn that finds its key absent. *)
Lemma put_addrs_eq now ttl log baseKey all_addrs addrs : forall batch b,
  put_addrs now ttl log baseKey all_addrs addrs batch b
  = (Ok (batch ++ flat_map (addr_ops now ttl baseKey (book_datastore b)) addrs),
     {| book_datastore := book_datastore b;
        book_emitted :=
          book_emitted b
          ++ map (fun _ => newAddr log all_addrs)
               (filter (fun addr => addr_is_new ttl baseKey (book_datastore b) addr = true)
                  addrs) |}).
Proof.
  induction addrs as [|addr rest IH]; intros batch b.
  - cbn. rewrite !app_nil_r. by destruct b.
  - rewrite put_addrs_cons, IH, filter_cons. cbn [flat_map].
    destruct (addr_is_new ttl baseKey (book_datastore b) addr) eqn:Hnew; cbn.
    + by rewrite <- !app_assoc.
    + by rewrite <- !app_assoc.
Qed.

Lemma put_eq now id log ttl addrs b :
  put now id log ttl addrs b
  = (Ok tt,
     {| book_datastore :=
          ttl_commit now ttl (put_batch now id log ttl addrs b) (book_datastore b);
        book_emitted :=
          book_emitted b
          ++ map (fun _ => newAddr log addrs)
               (filter (fun addr =>
                          addr_is_new ttl (getKey id log) (book_datastore b) addr = true)
                  addrs) |}).
Proof.
  unfold put, put_batch. destruct addrs as [|addr rest].
  - cbn. by rewrite app_nil_r.
  - unfold bind. by rewrite put_addrs_eq.
Qed.

Lemma put_refresh_eq ttl entries : forall batch,
  put_refresh ttl entries batch
  = batch ++ map (fun kv => if ttl <=? 0 then BatchDelete (fst kv)
                            else BatchPut (fst kv) (snd kv)) entries.
Proof.
  induction entries as [|[k v] rest IH]; intros batch; cbn.
  - by rewrite app_nil_r.
  - destruct (ttl <=? 0); rewrite IH; by rewrite <- app_assoc.
Qed.

Lemma addr_ops_puts now ttl baseKey d addr :
  0 < ttl -> Forall is_put (addr_ops now ttl baseKey d addr).
Proof.
  intros Httl. unfold addr_ops.
  destruct (Z.leb_spec ttl 0); [lia|].
  destruct (ttl_entries d !! _) as [[v exp]|]; [destruct (exp <? now + ttl)|];
    repeat constructor.
Qed.

Lemma addr_ops_deletes now ttl baseKey d addr :
  ttl <= 0 -> Forall is_delete (addr_ops now ttl baseKey d addr).
Proof.
  intros Httl. unfold addr_ops.
  destruct (Z.leb_spec ttl 0); [|lia]. repeat constructor.
Qed.

Lemma Forall_flat_map {A B} (P : B -> Prop) (f : A -> list B) (l : list A) :
  (forall x, Forall P (f x)) -> Forall P (flat_map f l).
Proof.
  intros Hf. induction l as [|x rest IH]; cbn; [constructor|].
  apply Forall_app. split; [apply Hf|apply IH].
Qed.

(** Puts keep the keys that are there, and a key that is put is there. *)
Lemma fold_puts_keep now ttl ops : forall (m : gmap string (Buffer * Z)) key,
  Forall is_put ops ->
  is_Some (m !! key) ->
  is_Some (fold_left (ttl_apply_op now ttl) ops m !! key).
Proof.
  induction ops as [|op rest IH]; intros m key Hops Hkey; [done|].
  inversion Hops as [|? ? Hop Hrest]; subst. cbn [fold_left]. apply IH; [done|].
  destruct op as [k v|k]; [|done]. cbn.
  destruct (decide (k = key)) as [->|Hne].
  - rewrite lookup_insert_eq. by eexists.
  - by rewrite lookup_insert_ne.
Qed.

Lemma fold_puts_present now ttl ops : forall (m : gmap string (Buffer * Z)) key v,
  Forall is_put ops ->
  BatchPut key v ∈ ops ->
  is_Some (fold_left (ttl_apply_op now ttl) ops m !! key).
Proof.
  induction ops as [|op rest IH]; intros m key v Hops Hin.
  - by apply not_elem_of_nil in Hin.
  - inversion Hops as [|? ? Hop Hrest]; subst. cbn [fold_left].
    apply elem_of_cons in Hin as [<-|Hin].
    + apply fold_puts_keep; [done|]. cbn. rewrite lookup_insert_eq. by eexists.
    + by eapply IH.
Qed.

(** Deletes bring no key in. *)
Lemma fold_deletes_absent now ttl ops : forall (m : gmap string (Buffer * Z)) key,
  Forall is_delete ops ->
  m !! key = None ->
  fold_left (ttl_apply_op now ttl) ops m !! key = None.
Proof.
  induction ops as [|op rest IH]; intros m key Hops Hkey; [done|].
  inversion Hops as [|? ? Hop Hrest]; subst. cbn [fold_left]. apply IH; [done|].
  destruct op as [k v|k]; [done|]. cbn.
  destruct (decide (k = key)) as [->|Hne].
  - by rewrite lookup_delete_eq.
  - by rewrite lookup_delete_ne.
Qed.


(** C8.  [put] emits [newAddr] if and only if one of the given addresses
    has a key that is not in the datastore before the call and is there
    after it.  With a positive time to live, every given address whose
    key is not in the datastore before the call is stored by the call and
    is notified: the notifications of the call are one for each such
    address, in the order given, each carrying the log and the addresses
    of the call.  A put all of whose addresses are in the datastore
    already, a put without addresses, and a put whose time to live is not
    positive emit none. *)
Theorem put_emits_newAddr now id log ttl addrs b :
  exists b' news,
    put now id log ttl addrs b = (Ok tt, b')
    /\ book_emitted b' = book_emitted b ++ news
    /\ news = map (fun _ => newAddr log addrs)
                (filter (fun addr =>
                           0 < ttl
                           /\ ttl_has (addr_key (getKey id log) addr) (book_datastore b) = false)
                   addrs)
    /\ Forall (fun ev => ev = newAddr log addrs) news
    /\ (forall addr,
          addr ∈ addrs -> 0 < ttl ->
          ttl_has (addr_key (getKey id log) addr) (book_datastore b) = false ->
          ttl_has (addr_key (getKey id log) addr) (book_datastore b') = true
          /\ newAddr log addrs ∈ news)
    /\ (news <> [] <->
        exists addr, addr ∈ addrs
          /\ ttl_has (addr_key (getKey id log) addr) (book_datastore b) = false
          /\ ttl_has (addr_key (getKey id log) addr) (book_datastore b') = true)
    /\ (Forall (fun addr =>
                  ttl_has (addr_key (getKey id log) addr) (book_datastore b) = true) addrs ->
        news = [])
    /\ (ttl <= 0 -> news = []).
Proof.
  set (is_new := fun addr => addr_is_new ttl (getKey id log) (book_datastore b) addr = true).
  assert (Hnew_iff : forall addr,
            is_new addr
            <-> 0 < ttl
                /\ ttl_has (addr_key (getKey id log) addr) (book_datastore b) = false).
  { intros addr. unfold is_new, addr_is_new.
    rewrite andb_true_iff, !negb_true_iff, Z.leb_gt. done. }
  eexists _, (map (fun _ => newAddr log addrs) (filter is_new addrs)).
  split; [apply put_eq|]. split; [reflexivity|]. cbn [book_datastore].
  assert (Hadded : forall addr,
            addr ∈ addrs -> 0 < ttl ->
            ttl_has (addr_key (getKey id log) addr) (book_datastore b) = false ->
            ttl_has (addr_key (getKey id log) addr)
              (ttl_commit now ttl (put_batch now id log ttl addrs b) (book_datastore b))
            = true).
  { (* an address that is new is put *)
    intros addr Hin Httl Hhas.
    unfold ttl_has, ttl_commit. cbn [ttl_entries]. apply bool_decide_eq_true_2.
    unfold put_batch. destruct addrs as [|a0 rest]; [by apply not_elem_of_nil in Hin|].
    apply (fold_puts_present _ _ _ _ _ (Multiaddr_buffer addr)).
    + apply Forall_flat_map. intros x. by apply addr_ops_puts.
    + apply list_elem_of_In, in_flat_map. exists addr. split; [by apply list_elem_of_In|].
      unfold addr_ops. destruct (Z.leb_spec ttl 0); [lia|].
      unfold ttl_has in Hhas. apply bool_decide_eq_false_1 in Hhas.
      unfold addr_key in *.
      destruct (ttl_entries (book_datastore b) !! _) eqn:Hkey.
      * exfalso. apply Hhas. by eexists.
      * by left. }
  split; [f_equal; by apply list_filter_iff|].
  split; [apply Forall_forall; intros ev (addr & <- & _)%list_elem_of_In%in_map_iff;
    reflexivity|].
  split; [|split; [split|split]].
  - (* an address that is new is stored and notified *)
    intros addr Hin Httl Hhas. split; [by apply Hadded|].
    apply list_elem_of_In, in_map_iff. exists addr. split; [done|].
    apply list_elem_of_In, list_elem_of_filter. split; [|done]. by apply Hnew_iff.
  - (* a notification comes from an address that is new and is put *)
    intros Hnews.
    destruct (filter is_new addrs) as [|addr others] eqn:Hfilter; [done|].
    assert (Hin : addr ∈ filter is_new addrs) by (rewrite Hfilter; by left).
    apply list_elem_of_filter in Hin as [[Httl Hhas]%Hnew_iff Hin].
    exists addr. split; [done|]. split; [done|]. by apply Hadded.
  - (* an address that is new and is there after the call is notified *)
    intros (addr & Hin & Hbefore & Hafter).
    destruct (Z.leb_spec ttl 0) as [Httl|Httl].
    + exfalso. unfold ttl_has in Hbefore, Hafter.
      apply bool_decide_eq_false_1 in Hbefore. apply bool_decide_eq_true_1 in Hafter.
      unfold ttl_commit, put_batch in Hafter. cbn [ttl_entries] in Hafter.
      destruct addrs as [|a0 rest]; [by apply not_elem_of_nil in Hin|].
      rewrite fold_deletes_absent in Hafter.
      * by destruct Hafter.
      * apply Forall_flat_map. intros x. by apply addr_ops_deletes.
      * destruct (ttl_entries (book_datastore b) !! _) eqn:Hkey; [|done].
        exfalso. apply Hbefore. by eexists.
    + assert (Hnew : addr ∈ filter is_new addrs).
      { apply list_elem_of_filter. split; [|done]. by apply Hnew_iff. }
      destruct (filter is_new addrs); [by apply not_elem_of_nil in Hnew|done].
  - (* no notification when every address is known *)
    intros Hknown.
    destruct (filter is_new addrs) as [|addr others] eqn:Hfilter; [done|].
    assert (Hin : addr ∈ filter is_new addrs) by (rewrite Hfilter; by left).
    apply list_elem_of_filter in Hin as [[_ Hnew]%Hnew_iff Hin].
    rewrite Forall_forall in Hknown. apply Hknown in Hin. congruence.
  - (* no notification when the time to live is not positive *)
    intros Httl.
    destruct (filter is_new addrs) as [|addr others] eqn:Hfilter; [done|].
    assert (Hin : addr ∈ filter is_new addrs) by (rewrite Hfilter; by left).
    apply list_elem_of_filter in Hin as [[Hpos _]%Hnew_iff _]. lia.
Qed.


Lemma addr_ops_extend now ttl baseKey d addr :
  0 < ttl -> Forall (extends_entry now ttl (ttl_entries d)) (addr_ops now ttl baseKey d addr).
Proof.
  intros Httl. unfold addr_ops.
  destruct (Z.leb_spec ttl 0); [lia|].
  destruct (ttl_entries d !! _) as [[v exp]|] eqn:Hkey.
  - destruct (Z.ltb_spec exp (now + ttl)); repeat constructor.
    cbn. intros v' exp'. rewrite Hkey. intros [= <- <-]. lia.
  - repeat constructor. cbn. intros v' exp'. by rewrite Hkey.
Qed.

Lemma fold_puts_monotone now ttl (orig : gmap string (Buffer * Z)) ops :
  forall m : gmap string (Buffer * Z),
  Forall (extends_entry now ttl orig) ops ->
  (forall key v exp, orig !! key = Some (v, exp) ->
     exists v' exp', m !! key = Some (v', exp') /\ exp <= exp') ->
  forall key v exp, orig !! key = Some (v, exp) ->
    exists v' exp',
      fold_left (ttl_apply_op now ttl) ops m !! key = Some (v', exp') /\ exp <= exp'.
Proof.
  induction ops as [|op rest IH]; intros m Hops Hm; [exact Hm|].
  inversion Hops as [|? ? Hop Hrest]; subst. cbn [fold_left].
  apply IH; [done|]. intros key v exp Hkey.
  destruct op as [k v0|k]; [|done]. cbn.
  destruct (decide (k = key)) as [->|Hne].
  - rewrite lookup_insert_eq. eexists _, _. split; [reflexivity|]. by eapply Hop.
  - rewrite lookup_insert_ne by done. by eapply Hm.
Qed.

Lemma elem_of_ttl_query prefix d k v :
  (k, v) ∈ ttl_query prefix d
  <-> exists exp, ttl_entries d !! k = Some (v, exp) /\ String.prefix prefix k = true.
Proof.
  unfold ttl_query. rewrite list_elem_of_In, in_map_iff. split.
  - intros ([k' [v' exp]] & [= -> ->] & Hin). cbn in *.
    apply list_elem_of_In, list_elem_of_filter in Hin as [Hp Hin].
    apply elem_of_map_to_list in Hin. eauto.
  - intros (exp & Hk & Hp). exists (k, (v, exp)). split; [done|].
    apply list_elem_of_In, list_elem_of_filter. split; [done|].
    by apply elem_of_map_to_list.
Qed.

(** Refreshing the entries listed by a query sets their expiration and
    leaves the other keys alone. *)
Lemma fold_refresh now ttl (orig : gmap string (Buffer * Z)) (l : list (string * Buffer)) :
  forall m : gmap string (Buffer * Z),
  (forall k v, (k, v) ∈ l -> exists exp, orig !! k = Some (v, exp)) ->
  forall key,
    fold_left (ttl_apply_op now ttl) (map (fun kv => BatchPut (fst kv) (snd kv)) l) m !! key
    = if decide (key ∈ map fst l)
      then (fun e => (fst e, now + ttl)) <$> orig !! key
      else m !! key.
Proof.
  induction l as [|[k v] rest IH]; intros m Hl key.
  - cbn. destruct (decide _) as [Hin|]; [by apply not_elem_of_nil in Hin|done].
  - cbn [map fold_left fst snd ttl_apply_op].
    rewrite IH by (intros k' v' Hin; apply Hl; by right).
    destruct (decide (key ∈ map fst rest)) as [Hin|Hnin].
    + rewrite decide_True by (by right). done.
    + destruct (decide (k = key)) as [->|Hne].
      * rewrite decide_True by (by left). rewrite lookup_insert_eq.
        destruct (Hl key v) as [exp ->]; [by left|]. done.
      * rewrite decide_False by (intros [->|?]%elem_of_cons; done).
        by rewrite lookup_insert_ne.
Qed.

(** C7, as amended.  A [put] with a positive [ttl] returns, and every
    entry stored before the call is still there after it.  When
    addresses are given, the expiration of no entry is earlier than it
    was.  When no address is given, every entry whose key begins with the
    key of the log keeps its value and expires [ttl] after the call,
    whatever its expiration was, and the other entries are as they were. *)
Theorem put_keeps_stored_addresses now id log ttl addrs b :
  0 < ttl ->
  exists b',
    put now id log ttl addrs b = (Ok tt, b')
    /\ forall key v exp,
         ttl_entries (book_datastore b) !! key = Some (v, exp) ->
         exists v' exp',
           ttl_entries (book_datastore b') !! key = Some (v', exp')
           /\ (addrs <> [] -> exp <= exp')
           /\ (addrs = [] ->
               v' = v
               /\ exp' = if String.prefix (Key.toString (getKey id log)) key
                         then now + ttl else exp).
Proof.
  intros Httl. eexists. split; [apply put_eq|].
  intros key v exp Hkey. cbn [book_datastore ttl_commit ttl_entries].
  unfold put_batch. destruct addrs as [|addr rest].
  - rewrite put_refresh_eq. cbn [app].
    destruct (Z.leb_spec ttl 0); [lia|].
    rewrite (fold_refresh now ttl (ttl_entries (book_datastore b)))
      by (intros k v0 (exp0 & Hk & _)%elem_of_ttl_query; eauto).
    destruct (String.prefix (Key.toString (getKey id log)) key) eqn:Hp.
    + rewrite decide_True.
      * rewrite Hkey. cbn. eexists _, _. split; [reflexivity|]. done.
      * apply list_elem_of_In, in_map_iff. exists (key, v). split; [done|].
        apply list_elem_of_In, elem_of_ttl_query. eauto.
    + rewrite decide_False.
      * eexists _, _. split; [exact Hkey|]. done.
      * intros ([k v0] & Heq & Hin)%list_elem_of_In%in_map_iff. cbn in Heq. subst k.
        apply list_elem_of_In, elem_of_ttl_query in Hin as (exp0 & _ & Hp').
        congruence.
  - destruct (fold_puts_monotone now ttl (ttl_entries (book_datastore b))
                (flat_map (addr_ops now ttl (getKey id log) (book_datastore b)) (addr :: rest))
                (ttl_entries (book_datastore b))) with (key := key) (v := v) (exp := exp)
      as (v' & exp' & Hafter & Hle).
    + apply Forall_flat_map. intros x. by apply addr_ops_extend.
    + intros k v0 exp0 Hk. eexists _, _. split; [exact Hk|lia].
    + done.
    + exists v', exp'. split; [exact Hafter|]. split; [done|done].
Qed.


(** C9.  The options given to the constructor are not used: whatever
    they are, and when there are none, the TTL datastore is built with
    [frequency = 20] and [ttl = 100], the books built over one datastore
    are equal, and so is what their methods return. *)
Theorem constructor_ignores_opts (Duration_Hour : Z) (datastore : gmap string (Buffer * Z))
    (opts1 opts2 : option TTLDatastoreOptions) :
  ttl_options (book_datastore (constructor Duration_Hour datastore opts1))
  = {| ttl := 100; frequency := 20 |}
  /\ constructor Duration_Hour datastore opts1 = constructor Duration_Hour datastore opts2
  /\ (forall now id log t addrs,
        put now id log t addrs (constructor Duration_Hour datastore opts1)
        = put now id log t addrs (constructor Duration_Hour datastore opts2))
  /\ (forall id,
        logs id (constructor Duration_Hour datastore opts1)
        = logs id (constructor Duration_Hour datastore opts2)).
Proof.
  assert (Hsame : constructor Duration_Hour datastore opts1
                  = constructor Duration_Hour datastore opts2).
  { unfold constructor. destruct opts1, opts2; reflexivity. }
  split; [reflexivity|]. split; [exact Hsame|].
  split; intros; by rewrite Hsame.
Qed.

Lemma elem_of_logs id b l :
  l ∈ logs id b
  <-> exists key entry, ttl_entries (book_datastore b) !! key = Some entry /\ logOfKey key = l.
Proof.
  unfold logs. rewrite elem_of_list_to_set, list_elem_of_In, in_map_iff. split.
  - intros ([k v] & <- & Hin). cbn.
    apply list_elem_of_In, elem_of_ttl_query in Hin as (exp & Hk & _). eauto.
  - intros (key & [v exp] & Hk & <-). exists (key, v). split; [done|].
    apply list_elem_of_In, elem_of_ttl_query. exists exp. split; [done|].
    by destruct key.
Qed.

Lemma namespaces_slash_plain (x : string) :
  plain x -> Key.namespaces (String Key.pathSep x) = [x].
Proof.
  intros Hx. rewrite <- (new_plain x Hx).
  apply (namespaces_withNamespaces [x]); [by constructor|done].
Qed.

Lemma slash_plain_not_root (x : string) :
  x <> EmptyString -> String.eqb (String Key.pathSep x) "/" = false.
Proof. intros Hx. apply String.eqb_neq. intros [= ->]. done. Qed.

(** The key under which [put] files an address of a log of a thread is
    mapped back to the log, when the identifier of the thread and the log
    are plain namespaces and so are the namespaces of the address. *)
Lemma logOfKey_addr_key (id : ID) (log : string) (addr : Multiaddr) :
  plain (ID_string id) ->
  plain log ->
  Forall plain (Key.namespaces (Key.new (Multiaddr_toString addr))) ->
  logOfKey (addr_key (getKey id log) addr) = log.
Proof.
  intros Hid Hlog Haddr.
  destruct (new_leading_slash (Multiaddr_toString addr)) as [a' Ha].
  rewrite Ha in Haddr.
  assert (Ha' : a' <> EmptyString).
  { intros ->. inversion Haddr as [|? ? [Hne _] _]; subst. done. }
  unfold addr_key, getKey. rewrite (new_plain _ Hid), (new_plain _ Hlog), Ha.
  unfold Key.child, Key.toString.
  rewrite (slash_plain_not_root (ID_string id)) by apply Hid.
  rewrite (slash_plain_not_root log) by apply Hlog.
  rewrite (slash_plain_not_root a') by done.
  assert (Hbase : String.eqb
                    (String.append (String Key.pathSep (ID_string id))
                       (String Key.pathSep log)) "/" = false).
  { apply String.eqb_neq.
    change (String.append (String Key.pathSep ?x) ?y)
      with (String Key.pathSep (String.append x y)).
    intros [= Heq]. destruct Hid as [Hne _]. by destruct (ID_string id). }
  rewrite Hbase.
  apply (logOfKey_entry _ (ID_string id) log (Key.namespaces (String Key.pathSep a'))).
  - rewrite !namespaces_append, !namespaces_slash_plain by done. reflexivity.
  - unfold Key.namespaces, Key.split, Key.toString. cbn [Key.split_aux].
    rewrite Ascii.eqb_refl. cbn [tail]. apply split_aux_nonempty.
  - constructor; [exact Hid|]. constructor; [exact Hlog|exact Haddr].
Qed.

(** C10.  [logs] does not look at its thread identifier: for every two
    identifiers and every content of the book the two sets are equal.
    They hold the logs of the keys of all the entries of the book, so
    that an address filed for a log of any thread puts that log in the
    set, whatever thread is asked for. *)
Theorem logs_ignores_id (id1 id2 : ID) b :
  logs id1 b = logs id2 b
  /\ (forall l,
        l ∈ logs id1 b
        <-> exists key entry,
              ttl_entries (book_datastore b) !! key = Some entry /\ logOfKey key = l)
  /\ (forall (id : ID) (log : string) (addr : Multiaddr),
        plain (ID_string id) ->
        plain log ->
        Forall plain (Key.namespaces (Key.new (Multiaddr_toString addr))) ->
        ttl_has (addr_key (getKey id log) addr) (book_datastore b) = true ->
        log ∈ logs id1 b).
Proof.
  split; [reflexivity|]. split; [intros l; apply elem_of_logs|].
  intros id log addr Hid Hlog Haddr Hhas.
  apply bool_decide_eq_true_1 in Hhas as [entry Hentry].
  apply elem_of_logs. exists (addr_key (getKey id log) addr), entry.
  split; [exact Hentry|]. by apply logOfKey_addr_key.
Qed.

End AddrBookFacts.

(** ** The address book on concrete inputs *)

(** At time [1000], a put of [addr1] with [ttl = 0] deletes the entry,
    and a put without addresses with [ttl = 10] makes it expire at
    [1010], where it expired at [5000]. *)
Lemma put_deletes_and_shortens :
  ~ put_never_shortens 1000 thread1 "log1" 0 [addr1] book1
  /\ ~ put_never_shortens 1000 thread1 "log1" 10 [] book1.
Proof.
  split; intros Hclaim.
  - destruct (Hclaim _ eq_refl "/thread1/log1/ip4/10.0.0.1/tcp/4001"
                (Multiaddr_buffer addr1) 5000 eq_refl eq_refl)
      as (v' & exp' & Hafter & _).
    vm_compute in Hafter. discriminate.
  - destruct (Hclaim _ eq_refl "/thread1/log1/ip4/10.0.0.1/tcp/4001"
                (Multiaddr_buffer addr1) 5000 eq_refl eq_refl)
      as (v' & exp' & Hafter & Hle).
    vm_compute in Hafter. injection Hafter as _ <-. lia.
Qed.

Lemma put_keeps_stored_addresses_witness :
  0 < 10
  /\ exists b',
       AddrBook.put 1000 thread1 "log1" 10 [addr1; addr2] book1 = (Ok tt, b')
       /\ forall key v exp,
            ttl_entries (AddrBook.book_datastore book1) !! key = Some (v, exp) ->
            exists v' exp',
              ttl_entries (AddrBook.book_datastore b') !! key = Some (v', exp')
              /\ exp <= exp'.
Proof.
  split; [lia|].
  destruct (put_keeps_stored_addresses 1000 thread1 "log1" 10 [addr1; addr2] book1)
    as (b' & Hput & Hkeep); [lia|].
  exists b'. split; [exact Hput|].
  intros key v exp Hkey.
  destruct (Hkeep key v exp Hkey) as (v' & exp' & Hafter & Hle & _).
  exists v', exp'. split; [exact Hafter|]. by apply Hle.
Defined.

(** The logs of [thread1] as the book lists them: the log of [thread2]
    is among them. *)
Example logs_of_thread1 :
  AddrBook.logs thread1 book1 = {[ "log1"; "log2" ]}.
Proof. vm_compute. reflexivity. Qed.

(** A new address is notified, a known one is not. *)
Example put_newAddr_addr2 :
  AddrBook.book_emitted (snd (AddrBook.put 1000 thread1 "log1" 10 [addr1; addr2] book1))
  = [AddrBook.newAddr "log1" [addr1; addr2]]
  /\ AddrBook.book_emitted (snd (AddrBook.put 1000 thread1 "log1" 10 [addr1] book1)) = [].
Proof. vm_compute. split; reflexivity. Qed.

Ltac solve_plain :=
  split; [discriminate | repeat (constructor; [discriminate|]); constructor].

Lemma put_emits_newAddr_witness :
  exists b' news,
    AddrBook.put 1000 thread1 "log1" 10 [addr1; addr2] book1 = (Ok tt, b')
    /\ AddrBook.book_emitted b' = AddrBook.book_emitted book1 ++ news
    /\ news = map (fun _ => AddrBook.newAddr "log1" [addr1; addr2])
                (filter (fun addr =>
                           0 < 10
                           /\ ttl_has (addr_key (AddrBook.getKey thread1 "log1") addr)
                                (AddrBook.book_datastore book1) = false)
                   [addr1; addr2])
    /\ Forall (fun ev => ev = AddrBook.newAddr "log1" [addr1; addr2]) news
    /\ (forall addr,
          addr ∈ [addr1; addr2] -> 0 < 10 ->
          ttl_has (addr_key (AddrBook.getKey thread1 "log1") addr)
            (AddrBook.book_datastore book1) = false ->
          ttl_has (addr_key (AddrBook.getKey thread1 "log1") addr)
            (AddrBook.book_datastore b') = true
          /\ AddrBook.newAddr "log1" [addr1; addr2] ∈ news)
    /\ (news <> [] <->
        exists addr, addr ∈ [addr1; addr2]
          /\ ttl_has (addr_key (AddrBook.getKey thread1 "log1") addr)
               (AddrBook.book_datastore book1) = false
          /\ ttl_has (addr_key (AddrBook.getKey thread1 "log1") addr)
               (AddrBook.book_datastore b') = true)
    /\ (Forall (fun addr =>
                  ttl_has (addr_key (AddrBook.getKey thread1 "log1") addr)
                    (AddrBook.book_datastore book1) = true) [addr1; addr2] ->
        news = [])
    /\ (10 <= 0 -> news = []).
Proof. exact (put_emits_newAddr 1000 thread1 "log1" 10 [addr1; addr2] book1). Defined.

Lemma logs_ignores_id_witness :
  (plain (ID_string thread2)
   /\ plain "log2"
   /\ Forall plain (Key.namespaces (Key.new (Multiaddr_toString addr2)))
   /\ ttl_has (addr_key (AddrBook.getKey thread2 "log2") addr2)
        (AddrBook.book_datastore book1) = true)
  /\ "log2" ∈ AddrBook.logs thread1 book1.
Proof.
  assert (Hid : plain (ID_string thread2)) by solve_plain.
  assert (Hlog : plain "log2") by solve_plain.
  assert (Haddr : Forall plain (Key.namespaces (Key.new (Multiaddr_toString addr2))))
    by (vm_compute; repeat (constructor; [solve_plain|]); constructor).
  assert (Hhas : ttl_has (addr_key (AddrBook.getKey thread2 "log2") addr2)
                   (AddrBook.book_datastore book1) = true) by reflexivity.
  split; [exact (conj Hid (conj Hlog (conj Haddr Hhas)))|].
  exact (proj2 (proj2 (logs_ignores_id thread1 thread2 book1))
           thread2 "log2" addr2 Hid Hlog Haddr Hhas).
Defined.

Lemma reduce_calls_left_fold_witness :
  let batches := [[Notes.ev "n1" (Notes.Write (Notes.text "a"))];
                  [Notes.ev "n1" (Notes.Append (Notes.text "b"))]] in
  let st' := snd (reduce_calls batches Notes.empty_store) in
  reduce_calls batches Notes.empty_store = (Ok tt, st')
  /\ spec_fold (ds_get "/collection/notes/n1" (datastore Notes.empty_store))
       (events_of "/collection/notes/n1" (concat batches))
     = Ok (ds_get "/collection/notes/n1" (datastore st'))
  /\ ds_get "/collection/notes/n1" (datastore st') = Ok (x40 :: Notes.text "ab").
Proof.
  intros batches st'.
  assert (Hcalls : reduce_calls batches Notes.empty_store = (Ok tt, st')) by reflexivity.
  split; [exact Hcalls|]. split; [|reflexivity].
  apply (reduce_calls_left_fold batches Notes.empty_store st'); [|exact Hcalls].
  assert (Hone : forall e : Notes.NoteEvent, forall key,
            (length (events_of key [e]) <= 1)%nat)
    by (intros e key; apply (length_filter _ [e])).
  constructor; [apply Hone|]. constructor; [apply Hone|]. constructor.
Defined.

(** * Further properties of the store *)

Section StoreMore.

Context {D : Type} `{Datastore D}.
Context {A E T Block JSONSchema Validator ThreadID ThreadInfo : Type}.
Context `{Event E} `{EventCodec E T} `{Cbor (option T)} `{Cbor JSONSchema}.
Context `{SchemaCompiler JSONSchema Validator} `{ActionCodec A E Block}.
Context `{ThreadIDCodec ThreadID} `{ThreadIDBytes ThreadID}.
Context `{ThreadService ThreadID ThreadInfo}.

Implicit Types (st : Store D JSONSchema Validator) (events : list E).

(** X2.  [reduce] is all or nothing: when it throws, the store is as it
    was before the call: nothing is committed to the datastore, no
    [stateChange] is emitted, and the collections and the schema registry
    are untouched. *)
Theorem reduce_throws_unchanged events st err st' :
  reduce events st = (Throw err, st') -> st' = st.
Proof.
  rewrite reduce_eq.
  destruct (Result_mapM (event_effect (datastore st)) events); [discriminate|].
  by intros [= _ <-].
Qed.

(** X3.  When the codec's normalized action for an event of the batch has
    a type outside [Create], [Save] and [Delete], [reduce] throws and the
    store is as before the call; the error is the one of an unknown
    operation when the events before that one raise nothing. *)
Theorem reduce_unknown_operation (pre post : list E) (event : E) st oldState r tag :
  prior_state (ds_get (eventKey event) (datastore st)) = Ok oldState ->
  codec_reduce oldState event = Ok r ->
  action_type (action r) = UnknownType tag ->
  (exists err, reduce (pre ++ event :: post) st = (Throw err, st))
  /\ (is_Ok (fst (reduce pre st)) = true ->
      reduce (pre ++ event :: post) st = (Throw (mkError "Unknown Operation"), st)).
Proof.
  intros Hold Hr Hty.
  assert (Hev : event_effect (datastore st) event = Throw (mkError "Unknown Operation")).
  { unfold event_effect. rewrite Hold. cbn. rewrite Hr. cbn. by rewrite Hty. }
  rewrite !reduce_eq, Result_mapM_app. cbn. rewrite Hev.
  destruct (Result_mapM (event_effect (datastore st)) pre) as [lpre|err]; cbn.
  - split; [by eexists|done].
  - split; [by eexists|discriminate].
Qed.

(** X4.  The test for an existing entity looks at the datastore as it was
    before the call: two events about one entity that is not stored, both
    reduced to a [Create], pass in one batch, and the entity then holds
    the state of the second. *)
Theorem reduce_two_creates `{!DatastoreLaws D} (e1 e2 : E) st r1 r2 :
  eventKey e1 = eventKey e2 ->
  prior_state (ds_get (eventKey e1) (datastore st)) = Ok None ->
  codec_reduce None e1 = Ok r1 -> action_type (action r1) = Create ->
  codec_reduce None e2 = Ok r2 -> action_type (action r2) = Create ->
  exists st',
    reduce [e1; e2] st = (Ok tt, st')
    /\ ds_get (eventKey e1) (datastore st') = Ok (encode (state r2))
    /\ emitted st' = emitted st ++ [stateChange [action r1; action r2]].
Proof.
  intros Hkey Hold Hr1 Hty1 Hr2 Hty2.
  rewrite reduce_eq. cbn [Result_mapM]. unfold event_effect.
  rewrite <- Hkey, Hold. cbn. rewrite Hr1, Hr2. cbn. rewrite Hty1, Hty2. cbn.
  eexists. split; [reflexivity|]. cbn. split; [|reflexivity].
  apply get_put_eq.
Qed.

(** X5.  [threadID] never throws and leaves the store as it is; it
    returns an identifier exactly when the get of the thread key succeeds
    and the bytes it returns are those of an identifier. *)
Theorem threadID_never_throws st :
  exists found : option ThreadID,
    threadID st = (Ok found, st)
    /\ forall id,
         found = Some id
         <-> exists buf,
               ds_get threadKey (datastore st) = Ok buf /\ fromBytes buf = Ok id.
Proof.
  unfold threadID, try_catch, bind, datastore_get, lift, ret.
  destruct (ds_get threadKey (datastore st)) as [buf|err] eqn:Hget.
  - destruct (fromBytes buf) as [id|err] eqn:Hid.
    + exists (Some id). split; [reflexivity|]. intros id'. split.
      * intros [= <-]. eauto.
      * intros (buf' & [= <-] & Hid'). congruence.
    + exists None. split; [reflexivity|]. intros id'. split; [discriminate|].
      intros (buf' & [= <-] & Hid'). congruence.
  - exists None. split; [reflexivity|]. intros id'. split; [discriminate|].
    by intros (buf' & [=] & _).
Qed.

Lemma threadID_returns st :
  exists found : option ThreadID, threadID st = (Ok found, st).
Proof.
  unfold threadID, try_catch, bind, datastore_get, lift, ret.
  destruct (ds_get threadKey (datastore st)) as [buf|err]; [|by eexists].
  destruct (fromBytes buf); by eexists.
Qed.

Lemma start_found random st (id : ThreadID) :
  threadID st = (Ok (Some id), st) ->
  start random st = (Ok (Adapter_new id), st).
Proof. intros Hid. unfold start, bind. by rewrite Hid. Qed.

Lemma threadID_after_put `{!DatastoreLaws D} st (id : ThreadID) :
  fromBytes (bytes id) = Ok id ->
  threadID (Build_Store (collections st) (schema st)
              (ds_put threadKey (bytes id) (datastore st)) (emitted st))
  = (Ok (Some id),
     Build_Store (collections st) (schema st)
       (ds_put threadKey (bytes id) (datastore st)) (emitted st)).
Proof.
  intros Hid. unfold threadID, try_catch, bind, datastore_get, lift, ret. cbn.
  by rewrite get_put_eq, Hid.
Qed.

Lemma start_fresh random st info :
  threadID (ThreadID := ThreadID) st = (Ok None, st) ->
  createThread random = Ok info ->
  addThread info = Ok tt ->
  start random st
  = (Ok (Adapter_new random),
     Build_Store (collections st) (schema st)
       (ds_put threadKey (bytes random) (datastore st)) (emitted st)).
Proof.
  intros Hnone Hcreate Hadd. unfold start, bind. rewrite Hnone.
  unfold lift, datastore_put, bind, gets, set_datastore, ret.
  by rewrite Hcreate, Hadd.
Qed.

(** X6.  When the store holds a thread identifier, [start] goes on with
    that thread: it returns an adapter for the stored identifier and the
    store is as before, whatever identifier is drawn and whatever the
    thread service would answer. *)
Theorem start_existing_thread random st buf (id : ThreadID) :
  ds_get threadKey (datastore st) = Ok buf ->
  fromBytes buf = Ok id ->
  start random st = (Ok (Adapter_new id), st).
Proof.
  intros Hget Hid.
  apply start_found. unfold threadID, try_catch, bind, datastore_get, lift, ret.
  by rewrite Hget, Hid.
Qed.

(** X7.  When the store holds no thread identifier and the thread service
    accepts the new thread, [start] writes the bytes of the identifier
    drawn under the thread key and leaves the other keys, the
    collections and the notifications as they were; [threadID] then
    returns that identifier. *)
Theorem start_persists_thread `{!DatastoreLaws D} random st info :
  threadID (ThreadID := ThreadID) st = (Ok None, st) ->
  createThread random = Ok info ->
  addThread info = Ok tt ->
  fromBytes (bytes random) = Ok random ->
  exists st',
    start random st = (Ok (Adapter_new random), st')
    /\ ds_get threadKey (datastore st') = Ok (bytes random)
    /\ (forall key, key <> threadKey ->
          ds_get key (datastore st') = ds_get key (datastore st))
    /\ collections st' = collections st
    /\ emitted st' = emitted st
    /\ threadID st' = (Ok (Some random), st').
Proof.
  intros Hnone Hcreate Hadd Hid. eexists. split; [by eapply start_fresh|]. cbn.
  split; [apply get_put_eq|]. split; [intros key Hkey; by apply get_put_ne|].
  split; [reflexivity|]. split; [reflexivity|]. by apply threadID_after_put.
Qed.

(** X8.  The thread of a store does not change: after a [start] that
    returns, every later [start] on the store it leaves returns the same
    adapter and changes nothing, whatever identifier is drawn then. *)
Theorem start_again_same_thread `{!DatastoreLaws D} random random' st st' adapter :
  fromBytes (bytes random) = Ok random ->
  start random st = (Ok adapter, st') ->
  start random' st' = (Ok adapter, st').
Proof.
  intros Hid Hstart.
  destruct (threadID_returns st) as (found & Hfound).
  destruct found as [id|].
  - rewrite (start_found random st id Hfound) in Hstart. injection Hstart as <- <-.
    by apply start_found.
  - unfold start, bind in Hstart. rewrite Hfound in Hstart.
    unfold lift, datastore_put, bind, gets, set_datastore, ret in Hstart.
    destruct (createThread random) as [info|]; [|discriminate].
    destruct (addThread info) as [[]|]; [|discriminate].
    injection Hstart as <- <-. apply start_found. by apply threadID_after_put.
Qed.

(** X9.  When the store holds no thread identifier and the thread service
    refuses the new thread, at [createThread] or at [addThread], [start]
    throws the error of the service and the store is as before: no
    identifier is written. *)
Theorem start_service_failure random st err :
  threadID (ThreadID := ThreadID) st = (Ok None, st) ->
  createThread random = Throw err
  \/ (exists info, createThread random = Ok info /\ addThread info = Throw err) ->
  start random st = (Throw err, st).
Proof.
  intros Hnone Hfail. unfold start, bind. rewrite Hnone. unfold lift.
  destruct Hfail as [Hcreate|(info & Hcreate & Hadd)].
  - by rewrite Hcreate.
  - by rewrite Hcreate, Hadd.
Qed.


(** X10.  A registration under a name that neither the collection map nor
    the schema registry holds, with a schema that compiles, returns;
    [getCollection] then gives the new collection for that name and what
    it gave before for every other name. *)
Theorem registerSchema_fresh name (sch : JSONSchema) compiled st :
  collections st !! name = None ->
  schema st !! name = None ->
  compile sch = Ok compiled ->
  exists st',
    registerSchema name sch st = (Ok tt, st')
    /\ getCollection name st'
       = Some {| collection_name := name; collection_validator := compiled |}
    /\ forall name', name' <> name -> getCollection name' st' = getCollection name' st.
Proof.
  intros Hcol Hsch Hcompile.
  unfold registerSchema, addSchema_compile, bind, gets, throw, lift, set_schema,
    set_collections, datastore_has, getCollection. cbn.
  rewrite bool_decide_eq_false_2 by (rewrite Hcol; by intros [? ?]).
  rewrite bool_decide_eq_false_2 by (rewrite Hsch; by intros [? ?]). cbn.
  rewrite Hcompile. cbn. eexists. split; [reflexivity|]. cbn.
  split; [by rewrite lookup_insert_eq|].
  intros name' Hne. by rewrite lookup_insert_ne.
Qed.

(** X11.  A registration that throws, for whatever reason, leaves the
    collection map, the datastore and the notifications as they were:
    [getCollection] answers as before for every name. *)
Theorem registerSchema_throws_unchanged name (sch : JSONSchema) st err st' :
  registerSchema name sch st = (Throw err, st') ->
  collections st' = collections st
  /\ datastore st' = datastore st
  /\ emitted st' = emitted st
  /\ forall name', getCollection name' st' = getCollection name' st.
Proof.
  unfold registerSchema, addSchema_compile, bind, gets, throw, lift, set_schema,
    set_collections, datastore_has, getCollection. cbn.
  destruct (bool_decide (is_Some (collections st !! name))); [by intros [= _ <-]|].
  destruct (bool_decide (is_Some (schema st !! name))); [by intros [= _ <-]|].
  cbn. destruct (compile sch) as [compiled|err']; [discriminate|].
  by intros [= _ <-].
Qed.





(** X13.  [handler] emits the block as a [localEvent] exactly when it
    returns, after the events of the actions have been reduced and
    committed; when it throws, at the encoding or in [reduce], the store
    and both lists of notifications are as before the call. *)
Theorem handler_outcome (actions : list A) st (blocks : list Block) :
  match handler actions (st, blocks) with
  | (Ok _, s') =>
      exists events block st',
        codec_encode actions = Ok (events, block)
        /\ reduce events st = (Ok tt, st')
        /\ s' = (st', blocks ++ [block])
  | (Throw err, s') =>
      s' = (st, blocks)
      /\ (codec_encode actions = Throw err
          \/ exists events block,
               codec_encode actions = Ok (events, block)
               /\ reduce events st = (Throw err, st))
  end.
Proof.
  unfold handler, bind, lift, on_store, dispatch, emit_localEvent.
  destruct (codec_encode actions) as [[events block]|err]; [|by split; [|left]].
  cbn [fst snd].
  destruct (reduce events st) as [[[]|err] st'] eqn:Hred.
  - exists events, block, st'. split; [reflexivity|]. split; [exact Hred|reflexivity].
  - assert (st' = st) as ->.
    { rewrite reduce_eq in Hred.
      destruct (Result_mapM (event_effect (datastore st)) events); [discriminate|].
      by injection Hred as _ <-. }
    split; [reflexivity|]. right. exists events, block. split; [reflexivity|exact Hred].
Qed.


(** X24.  A single event reduced to a [Save] is written whether or not
    the entity was stored, and a single event reduced to a [Delete] is no
    error when the entity is not stored: the call returns, the key then
    holds the encoded new state, or nothing after a [Delete], the other
    keys are as they were and one [stateChange] with the action is
    emitted. *)
Theorem reduce_save_or_delete `{!DatastoreLaws D} (event : E) st oldState r :
  prior_state (ds_get (eventKey event) (datastore st)) = Ok oldState ->
  codec_reduce oldState event = Ok r ->
  action_type (action r) = Save \/ action_type (action r) = Delete ->
  exists st',
    reduce [event] st = (Ok tt, st')
    /\ ds_get (eventKey event) (datastore st')
       = match action_type (action r) with
         | Delete => Throw notFoundError
         | _ => Ok (encode (state r))
         end
    /\ (forall key, key <> eventKey event ->
          ds_get key (datastore st') = ds_get key (datastore st))
    /\ emitted st' = emitted st ++ [stateChange [action r]].
Proof.
  intros Hold Hr Hty. rewrite reduce_eq. cbn [Result_mapM]. unfold event_effect.
  rewrite Hold. cbn. rewrite Hr. cbn.
  destruct Hty as [Hty|Hty]; rewrite Hty; cbn; eexists; (split; [reflexivity|]); cbn.
  - split; [apply get_put_eq|]. split; [|reflexivity].
    intros key Hkey. by apply get_put_ne.
  - split; [apply get_delete_eq|]. split; [|reflexivity].
    intros key Hkey. by apply get_delete_ne.
Qed.


End StoreMore.

(** * Further properties of the address book *)

Lemma prefix_refl (s : string) : String.prefix s s = true.
Proof.
  induction s as [|c s IH]; [reflexivity|]. cbn. by destruct (ascii_dec c c).
Qed.

Lemma prefix_append (s1 s2 : string) : String.prefix s1 (String.append s1 s2) = true.
Proof.
  induction s1 as [|c s1 IH].
  - change (String.append EmptyString s2) with s2. by destruct s2.
  - change (String.append (String c s1) s2) with (String c (String.append s1 s2)).
    cbn. by destruct (ascii_dec c c).
Qed.

(** A key is a prefix of its children. *)
Lemma prefix_child (k s : string) :
  String.prefix (Key.toString k) (Key.child k (Key.new s)) = true.
Proof.
  destruct (new_leading_slash s) as [s' ->].
  unfold Key.child, Key.toString.
  destruct (String.eqb_spec k "/") as [->|_]; [exact (prefix_append "/" s')|].
  destruct (String.eqb (String Key.pathSep s') "/"); [apply prefix_refl|].
  apply prefix_append.
Qed.

Section AddrBookMore.

Import AddrBook.

Context `{MultiaddrCodec} `{IDCodec}.

Implicit Types (b : AddrBook.t) (addrs : list Multiaddr) (ops : list BatchOp).

Lemma get_loop_spec (entries : list (string * Buffer)) : forall acc l,
  get_loop entries acc = Ok l ->
  (forall a, a ∈ acc -> a ∈ l)
  /\ (forall k v, (k, v) ∈ entries -> exists a, multiaddr v = Ok a /\ a ∈ l)
  /\ length l = (length acc + length entries)%nat.
Proof.
  induction entries as [|[k v] rest IH]; intros acc l; cbn.
  - intros [= <-]. split; [done|]. split; [|lia].
    intros k v Hin. by apply not_elem_of_nil in Hin.
  - destruct (multiaddr v) as [a|] eqn:Hv; [|discriminate].
    intros Hloop. destruct (IH _ _ Hloop) as (Hacc & Hrest & Hlen).
    split; [intros a' Hin; apply Hacc, elem_of_app; by left|].
    split.
    + intros k' v' [[= -> ->]|Hin]%elem_of_cons.
      * exists a. split; [done|]. apply Hacc, elem_of_app. right. by left.
      * by apply (Hrest k' v').
    + rewrite Hlen, length_app. cbn. lia.
Qed.

Lemma fold_untouched now ttl ops : forall (m : gmap string (Buffer * Z)) key,
  Forall (fun op => op_key op <> key) ops ->
  fold_left (ttl_apply_op now ttl) ops m !! key = m !! key.
Proof.
  induction ops as [|op rest IH]; intros m key Hops; [done|].
  inversion Hops as [|? ? Hop Hrest]; subst. cbn [fold_left]. rewrite IH by done.
  destruct op as [k v|k]; cbn in *.
  - by rewrite lookup_insert_ne.
  - by rewrite lookup_delete_ne.
Qed.

(** Among puts of different keys, a put decides what its key holds. *)
Lemma fold_put_unique now ttl ops : forall (m : gmap string (Buffer * Z)) key v,
  NoDup (map op_key ops) ->
  BatchPut key v ∈ ops ->
  fold_left (ttl_apply_op now ttl) ops m !! key = Some (v, now + ttl).
Proof.
  induction ops as [|op rest IH]; intros m key v Hdup Hin.
  - by apply not_elem_of_nil in Hin.
  - cbn in Hdup. apply NoDup_cons in Hdup as [Hfirst Hdup]. cbn [fold_left].
    apply elem_of_cons in Hin as [<-|Hin].
    + rewrite fold_untouched.
      * cbn. by rewrite lookup_insert_eq.
      * apply Forall_forall. intros op Hop Heq. apply Hfirst. cbn.
        apply list_elem_of_In, in_map_iff. exists op. split; [done|].
        by apply list_elem_of_In.
    + by apply IH.
Qed.

Lemma addr_ops_cases now ttl baseKey d addr :
  addr_ops now ttl baseKey d addr = []
  \/ exists op, addr_ops now ttl baseKey d addr = [op] /\ op_key op = addr_key baseKey addr.
Proof.
  unfold addr_ops. destruct (ttl <=? 0); [right; by eexists|].
  destruct (ttl_entries d !! _) as [[v exp]|]; [destruct (exp <? now + ttl)|];
    (by left) || (right; by eexists).
Qed.

Lemma addr_ops_keys now ttl baseKey d addrs op :
  op ∈ flat_map (addr_ops now ttl baseKey d) addrs ->
  op_key op ∈ map (addr_key baseKey) addrs.
Proof.
  intros (addr & Haddr & Hop)%list_elem_of_In%in_flat_map.
  apply list_elem_of_In, in_map_iff. exists addr. split; [|done].
  destruct (addr_ops_cases now ttl baseKey d addr) as [Hnil|(op' & Heq & Hkey)].
  - rewrite Hnil in Hop. done.
  - rewrite Heq in Hop. destruct Hop as [<-|[]]. done.
Qed.

Lemma addr_ops_NoDup now ttl baseKey d addrs :
  NoDup (map (addr_key baseKey) addrs) ->
  NoDup (map op_key (flat_map (addr_ops now ttl baseKey d) addrs)).
Proof.
  induction addrs as [|addr rest IH]; cbn; [constructor|].
  intros [Hfirst Hdup]%NoDup_cons. rewrite map_app.
  destruct (addr_ops_cases now ttl baseKey d addr) as [->|(op & -> & Hkey)]; cbn.
  - by apply IH.
  - apply NoDup_cons. split; [|by apply IH].
    intros (op' & Heq & Hin)%list_elem_of_In%in_map_iff. apply Hfirst.
    rewrite <- Hkey, <- Heq. by eapply addr_ops_keys, list_elem_of_In.
Qed.

(** X14.  An address put with a positive [ttl], whose key is not stored or
    expires before [ttl] from now, is stored with its bytes and expires
    [ttl] from now, when the given addresses have different keys; a
    [get] of the log that returns then lists the address made of these
    bytes. *)
Theorem put_then_get now id log ttl addrs addr b a :
  0 < ttl ->
  NoDup (map (addr_key (getKey id log)) addrs) ->
  addr ∈ addrs ->
  (forall v exp,
     ttl_entries (book_datastore b) !! addr_key (getKey id log) addr = Some (v, exp) ->
     exp < now + ttl) ->
  multiaddr (Multiaddr_buffer addr) = Ok a ->
  exists b',
    put now id log ttl addrs b = (Ok tt, b')
    /\ ttl_entries (book_datastore b') !! addr_key (getKey id log) addr
       = Some (Multiaddr_buffer addr, now + ttl)
    /\ forall l, get id log b' = (Ok l, b') -> a ∈ l.
Proof.
  intros Httl Hdup Hin Hold Ha. eexists. split; [apply put_eq|].
  cbn [book_datastore ttl_commit ttl_entries].
  assert (Hstored :
    fold_left (ttl_apply_op now ttl) (put_batch now id log ttl addrs b)
      (ttl_entries (book_datastore b)) !! addr_key (getKey id log) addr
    = Some (Multiaddr_buffer addr, now + ttl)).
  { unfold put_batch. destruct addrs as [|a0 rest]; [by apply not_elem_of_nil in Hin|].
    apply fold_put_unique; [by apply addr_ops_NoDup|].
    apply list_elem_of_In, in_flat_map. exists addr. split; [by apply list_elem_of_In|].
    unfold addr_ops. destruct (Z.leb_spec ttl 0); [lia|]. fold (addr_key (getKey id log) addr).
    destruct (ttl_entries (book_datastore b) !! addr_key (getKey id log) addr)
      as [[v exp]|] eqn:Hkey; [|by left].
    specialize (Hold v exp eq_refl). destruct (Z.ltb_spec exp (now + ttl)); [by left|lia]. }
  split; [exact Hstored|].
  intros l. unfold get, bind, gets, lift. cbn [book_datastore].
  destruct (get_loop _ []) as [l'|] eqn:Hloop; [|discriminate].
  intros [= <-]. apply get_loop_spec in Hloop as (_ & Hentries & _).
  destruct (Hentries (addr_key (getKey id log) addr) (Multiaddr_buffer addr))
    as (a' & Ha' & Hl).
  - apply elem_of_ttl_query. exists (now + ttl). split; [exact Hstored|].
    apply prefix_child.
  - congruence.
Qed.

Lemma clear_loop_eq (entries : list (string * Buffer)) : forall batch,
  clear_loop entries batch = batch ++ map (fun kv => BatchDelete (fst kv)) entries.
Proof.
  induction entries as [|[k v] rest IH]; intros batch; cbn.
  - by rewrite app_nil_r.
  - rewrite IH. by rewrite <- app_assoc.
Qed.

(** Deletes empty the keys they name and leave the others alone,
    whatever the time and the [ttl] of the batch. *)
Lemma fold_deletes_lookup now ttl (keys : list string) :
  forall (m : gmap string (Buffer * Z)) key,
  fold_left (ttl_apply_op now ttl) (map BatchDelete keys) m !! key
  = if decide (key ∈ keys) then None else m !! key.
Proof.
  induction keys as [|k rest IH]; intros m key.
  - cbn. destruct (decide _) as [Hin|]; [by apply not_elem_of_nil in Hin|done].
  - cbn [map fold_left ttl_apply_op]. rewrite IH.
    destruct (decide (key ∈ rest)) as [Hin|Hnin].
    + rewrite decide_True by (by right). done.
    + destruct (decide (k = key)) as [->|Hne].
      * rewrite decide_True by (by left). by rewrite lookup_delete_eq.
      * rewrite decide_False by (intros [->|?]%elem_of_cons; done).
        by rewrite lookup_delete_ne.
Qed.

Lemma fold_deletes_any now ttl now' ttl' (keys : list string) :
  forall m : gmap string (Buffer * Z),
  fold_left (ttl_apply_op now ttl) (map BatchDelete keys) m
  = fold_left (ttl_apply_op now' ttl') (map BatchDelete keys) m.
Proof. induction keys as [|k rest IH]; intros m; [reflexivity|apply IH]. Qed.

Lemma elem_of_query_keys prefix d key :
  key ∈ map fst (ttl_query prefix d)
  <-> is_Some (ttl_entries d !! key) /\ String.prefix prefix key = true.
Proof.
  rewrite list_elem_of_In, in_map_iff. split.
  - intros ([k v] & <- & Hin). cbn.
    apply list_elem_of_In, elem_of_ttl_query in Hin as (exp & Hk & Hp).
    split; [by eexists|done].
  - intros [[[v exp] Hk] Hp]. exists (key, v). split; [done|].
    apply list_elem_of_In, elem_of_ttl_query. eauto.
Qed.

Lemma ttl_query_empty prefix d :
  (forall key, String.prefix prefix key = true -> ttl_entries d !! key = None) ->
  ttl_query prefix d = [].
Proof.
  intros Hnone. destruct (ttl_query prefix d) as [|[k v] rest] eqn:Hq; [done|].
  assert (Hin : (k, v) ∈ ttl_query prefix d) by (rewrite Hq; by left).
  apply elem_of_ttl_query in Hin as (exp & Hk & Hp).
  rewrite (Hnone k Hp) in Hk. discriminate.
Qed.

(** X15.  [clear] returns; it removes every entry whose key begins with
    the key of the log and leaves the other entries and the notifications
    as they were; a [get] of the log then returns no address. *)
Theorem clear_removes_log now id log b :
  exists b',
    clear now id log b = (Ok tt, b')
    /\ (forall key,
          ttl_entries (book_datastore b') !! key
          = if String.prefix (Key.toString (getKey id log)) key then None
            else ttl_entries (book_datastore b) !! key)
    /\ book_emitted b' = book_emitted b
    /\ get id log b' = (Ok [], b').
Proof.
  eexists. split; [reflexivity|]. cbn [book_datastore book_emitted ttl_commit ttl_entries].
  assert (Hlookup : forall key,
    fold_left (ttl_apply_op now (ttl (ttl_options (book_datastore b))))
      (clear_loop (ttl_query (Key.toString (getKey id log)) (book_datastore b)) [])
      (ttl_entries (book_datastore b)) !! key
    = if String.prefix (Key.toString (getKey id log)) key then None
      else ttl_entries (book_datastore b) !! key).
  { intros key. rewrite clear_loop_eq. cbn [app].
    rewrite <- (map_map fst BatchDelete), fold_deletes_lookup.
    destruct (String.prefix (Key.toString (getKey id log)) key) eqn:Hp.
    - destruct (decide _) as [Hin|Hnin]; [done|].
      destruct (ttl_entries (book_datastore b) !! key) eqn:Hk; [|done].
      exfalso. apply Hnin, elem_of_query_keys. split; [by eexists|done].
    - rewrite decide_False; [done|]. intros [_ Hp']%elem_of_query_keys. congruence. }
  split; [exact Hlookup|]. split; [reflexivity|].
  unfold get, bind, gets, lift. cbn [book_datastore].
  rewrite ttl_query_empty; [reflexivity|].
  intros key Hp. cbn [ttl_entries]. by rewrite Hlookup, Hp.
Qed.

(** X16.  A [put] without addresses and with a [ttl] that is not positive
    does what [clear] does: the two calls leave the same book and return
    the same. *)
Theorem put_nonpositive_is_clear now now' id log ttl b :
  ttl <= 0 ->
  put now id log ttl [] b = clear now' id log b.
Proof.
  intros Httl. unfold put, clear, bind, gets, commit. cbn [book_datastore].
  rewrite put_refresh_eq, clear_loop_eq. cbn [app].
  destruct (Z.leb_spec ttl 0); [|lia].
  unfold ttl_commit. do 3 f_equal.
  rewrite <- !(map_map fst BatchDelete). apply fold_deletes_any.
Qed.

(** X17.  A [put] of addresses with a [ttl] that is not positive returns;
    it removes the entries of the keys of these addresses, leaves every
    other entry as it was, and emits nothing. *)
Theorem put_nonpositive_deletes now id log ttl addrs b :
  ttl <= 0 ->
  addrs <> [] ->
  exists b',
    put now id log ttl addrs b = (Ok tt, b')
    /\ (forall key,
          ttl_entries (book_datastore b') !! key
          = if decide (key ∈ map (addr_key (getKey id log)) addrs) then None
            else ttl_entries (book_datastore b) !! key)
    /\ book_emitted b' = book_emitted b.
Proof.
  intros Httl Hne. eexists. split; [apply put_eq|].
  cbn [book_datastore book_emitted ttl_commit ttl_entries]. split.
  - intros key. unfold put_batch. destruct addrs as [|a0 rest]; [done|].
    assert (Hops : flat_map (addr_ops now ttl (getKey id log) (book_datastore b)) (a0 :: rest)
                   = map BatchDelete (map (addr_key (getKey id log)) (a0 :: rest))).
    { generalize (a0 :: rest). intros l. induction l as [|x l IH]; [reflexivity|].
      cbn [flat_map map]. rewrite IH. unfold addr_ops at 1.
      destruct (Z.leb_spec ttl 0); [reflexivity|lia]. }
    rewrite Hops. apply fold_deletes_lookup.
  - assert (Hnone : filter (fun addr =>
                      addr_is_new ttl (getKey id log) (book_datastore b) addr = true) addrs
                    = []).
    { clear Hne. induction addrs as [|x l IH]; [reflexivity|].
      rewrite filter_cons_False; [exact IH|].
      unfold addr_is_new. destruct (Z.leb_spec ttl 0); [done|lia]. }
    rewrite Hnone. cbn. apply app_nil_r.
Qed.


(** The namespaces of the key under which [put] files an address. *)
Lemma namespaces_addr_key (id : ID) (log : string) (addr : Multiaddr) :
  plain (ID_string id) ->
  plain log ->
  Forall plain (Key.namespaces (Key.new (Multiaddr_toString addr))) ->
  Key.namespaces (addr_key (getKey id log) addr)
  = ID_string id :: log :: Key.namespaces (Key.new (Multiaddr_toString addr)).
Proof.
  intros Hid Hlog Haddr.
  destruct (new_leading_slash (Multiaddr_toString addr)) as [a' Ha].
  rewrite Ha in Haddr |- *.
  assert (Ha' : a' <> EmptyString).
  { intros ->. inversion Haddr as [|? ? [Hne _] _]; subst. done. }
  unfold addr_key, getKey. rewrite (new_plain _ Hid), (new_plain _ Hlog), Ha.
  unfold Key.child, Key.toString.
  rewrite (slash_plain_not_root (ID_string id)) by apply Hid.
  rewrite (slash_plain_not_root log) by apply Hlog.
  rewrite (slash_plain_not_root a') by done.
  assert (Hbase : String.eqb
                    (String.append (String Key.pathSep (ID_string id))
                       (String Key.pathSep log)) "/" = false).
  { apply String.eqb_neq.
    change (String.append (String Key.pathSep ?x) ?y)
      with (String Key.pathSep (String.append x y)).
    intros [= Heq]. destruct Hid as [Hne _]. by destruct (ID_string id). }
  rewrite Hbase.
  rewrite !namespaces_append, !namespaces_slash_plain by done. reflexivity.
Qed.

(** The thread of a key of plain namespaces is the first of them. *)
Lemma threadOfKey_first (key tid : string) (rest : list string) :
  Key.namespaces key = tid :: rest ->
  Forall plain (tid :: rest) ->
  threadOfKey key = tid.
Proof.
  intros Hns Hplain. unfold threadOfKey, Key.reverse, Key.baseNamespace.
  rewrite Hns, namespaces_withNamespaces.
  - cbn [rev]. apply last_last.
  - by apply Forall_rev.
  - cbn. by destruct (rev rest).
Qed.

Lemma threads_loop_spec (entries : list (string * Buffer)) : forall acc l,
  threads_loop entries acc = Ok l ->
  (forall i, i ∈ acc -> i ∈ l)
  /\ forall k v, (k, v) ∈ entries ->
       exists i, fromEncoded (threadOfKey k) = Ok i /\ i ∈ l.
Proof.
  induction entries as [|[k v] rest IH]; intros acc l; cbn.
  - intros [= <-]. split; [done|]. intros k v Hin. by apply not_elem_of_nil in Hin.
  - destruct (fromEncoded (threadOfKey k)) as [i|] eqn:Hk; [|discriminate].
    intros Hloop. destruct (IH _ _ Hloop) as (Hacc & Hrest).
    split; [intros i' Hin; apply Hacc, elem_of_app; by left|].
    intros k' v' [[= -> ->]|Hin]%elem_of_cons.
    + exists i. split; [done|]. apply Hacc, elem_of_app. right. by left.
    + by apply (Hrest k' v').
Qed.

(** X18.  When [threads] returns, the identifiers it returns hold, for
    every address filed in the book under a thread and a log, the
    identifier decoded from the string of that thread, when the thread,
    the log and the namespaces of the address are plain namespaces. *)
Theorem threads_lists_threads (id : ID) (log : string) (addr : Multiaddr) b l :
  plain (ID_string id) ->
  plain log ->
  Forall plain (Key.namespaces (Key.new (Multiaddr_toString addr))) ->
  ttl_has (addr_key (getKey id log) addr) (book_datastore b) = true ->
  threads b = (Ok l, b) ->
  exists i, fromEncoded (ID_string id) = Ok i /\ i ∈ l.
Proof.
  intros Hid Hlog Haddr Hhas. unfold threads, bind, gets, lift.
  destruct (threads_loop _ []) as [l'|] eqn:Hloop; [|discriminate].
  intros [= <-]. apply threads_loop_spec in Hloop as [_ Hentries].
  apply bool_decide_eq_true_1 in Hhas as [[v exp] Hentry].
  destruct (Hentries (addr_key (getKey id log) addr) v) as (i & Hi & Hin).
  - apply elem_of_ttl_query. exists exp. split; [exact Hentry|].
    by destruct (addr_key (getKey id log) addr).
  - exists i. split; [|exact Hin]. rewrite <- Hi. f_equal. symmetry.
    apply (threadOfKey_first _ _ (log :: Key.namespaces (Key.new (Multiaddr_toString addr)))).
    + by apply namespaces_addr_key.
    + constructor; [exact Hid|]. constructor; [exact Hlog|exact Haddr].
Qed.


Lemma fold_puts_keep_exp now ttl ops : forall (m : gmap string (Buffer * Z)) key v,
  Forall is_put ops ->
  m !! key = Some (v, now + ttl) ->
  exists v', fold_left (ttl_apply_op now ttl) ops m !! key = Some (v', now + ttl).
Proof.
  induction ops as [|op rest IH]; intros m key v Hops Hkey; [by eexists|].
  inversion Hops as [|? ? Hop Hrest]; subst. cbn [fold_left].
  destruct op as [k v0|k]; [|done]. cbn.
  destruct (decide (k = key)) as [->|Hne].
  - apply (IH _ _ v0); [done|]. by rewrite lookup_insert_eq.
  - apply (IH _ _ v); [done|]. by rewrite lookup_insert_ne.
Qed.

Lemma fold_puts_exp now ttl ops : forall (m : gmap string (Buffer * Z)) key v,
  Forall is_put ops ->
  BatchPut key v ∈ ops ->
  exists v', fold_left (ttl_apply_op now ttl) ops m !! key = Some (v', now + ttl).
Proof.
  induction ops as [|op rest IH]; intros m key v Hops Hin.
  - by apply not_elem_of_nil in Hin.
  - inversion Hops as [|? ? Hop Hrest]; subst. cbn [fold_left].
    apply elem_of_cons in Hin as [<-|Hin].
    + apply (fold_puts_keep_exp _ _ _ _ _ v); [done|]. cbn. by rewrite lookup_insert_eq.
    + by apply (IH _ _ v).
Qed.

(** After a put with a positive [ttl], none of the given addresses
    expires before [ttl] from the time of the put. *)
Lemma put_addrs_not_sooner now id log ttl addrs b addr :
  0 < ttl ->
  addr ∈ addrs ->
  exists v exp,
    ttl_entries (book_datastore (snd (put now id log ttl addrs b)))
      !! addr_key (getKey id log) addr = Some (v, exp)
    /\ now + ttl <= exp.
Proof.
  intros Httl Hin. rewrite put_eq. cbn [snd book_datastore ttl_commit ttl_entries].
  unfold put_batch. destruct addrs as [|a0 rest]; [by apply not_elem_of_nil in Hin|].
  set (key := addr_key (getKey id log) addr).
  set (ops := flat_map (addr_ops now ttl (getKey id log) (book_datastore b)) (a0 :: rest)).
  assert (Hputs : Forall is_put ops)
    by (apply Forall_flat_map; intros x; by apply addr_ops_puts).
  destruct (ttl_entries (book_datastore b) !! key) as [[v exp]|] eqn:Hkey.
  - destruct (Z.ltb_spec exp (now + ttl)) as [Hlt|Hge].
    + destruct (fold_puts_exp now ttl ops (ttl_entries (book_datastore b)) key
                  (Multiaddr_buffer addr) Hputs) as [v' Hv'].
      * apply list_elem_of_In, in_flat_map. exists addr.
        split; [by apply list_elem_of_In|].
        unfold addr_ops. destruct (Z.leb_spec ttl 0); [lia|].
        fold (addr_key (getKey id log) addr). fold key. rewrite Hkey.
        destruct (Z.ltb_spec exp (now + ttl)); [by left|lia].
      * exists v', (now + ttl). split; [exact Hv'|lia].
    + exists v, exp. split; [|lia]. rewrite fold_untouched; [exact Hkey|].
      apply Forall_forall. intros op Hop Heq.
      apply list_elem_of_In, in_flat_map in Hop as (addr' & _ & Hop).
      unfold addr_ops in Hop. destruct (Z.leb_spec ttl 0); [lia|].
      destruct (ttl_entries (book_datastore b) !! addr_key (getKey id log) addr')
        as [[v' exp']|] eqn:Hkey'.
      * destruct (Z.ltb_spec exp' (now + ttl)); [|done].
        destruct Hop as [<-|[]]. cbn in Heq. rewrite Heq, Hkey in Hkey'.
        injection Hkey' as _ <-. lia.
      * destruct Hop as [<-|[]]. cbn in Heq. rewrite Heq, Hkey in Hkey'. discriminate.
  - destruct (fold_puts_exp now ttl ops (ttl_entries (book_datastore b)) key
                (Multiaddr_buffer addr) Hputs) as [v' Hv'].
    + apply list_elem_of_In, in_flat_map. exists addr.
      split; [by apply list_elem_of_In|].
      unfold addr_ops. destruct (Z.leb_spec ttl 0); [lia|].
      fold (addr_key (getKey id log) addr). fold key. rewrite Hkey. by left.
    + exists v', (now + ttl). split; [exact Hv'|lia].
Qed.

(** X23.  A [put] of addresses with a positive [ttl] that is made again,
    at the same time and with the same arguments, changes nothing and
    emits nothing: the book is as the first call left it. *)
Theorem put_twice now id log ttl addrs b b' :
  0 < ttl ->
  addrs <> [] ->
  put now id log ttl addrs b = (Ok tt, b') ->
  put now id log ttl addrs b' = (Ok tt, b').
Proof.
  intros Httl Hne Hput.
  assert (Hkept : forall addr, addr ∈ addrs ->
            addr_ops now ttl (getKey id log) (book_datastore b') addr = []
            /\ addr_is_new ttl (getKey id log) (book_datastore b') addr = false).
  { intros addr Hin.
    destruct (put_addrs_not_sooner now id log ttl addrs b addr Httl Hin)
      as (v & exp & Hkey & Hexp).
    rewrite Hput in Hkey. cbn [snd] in Hkey.
    unfold addr_ops, addr_is_new, ttl_has. destruct (Z.leb_spec ttl 0); [lia|].
    fold (addr_key (getKey id log) addr). rewrite Hkey.
    destruct (Z.ltb_spec exp (now + ttl)); [lia|]. split; [reflexivity|].
    rewrite bool_decide_eq_true_2 by by eexists. reflexivity. }
  rewrite put_eq. unfold put_batch. destruct addrs as [|a0 rest]; [done|].
  assert (Hops : flat_map (addr_ops now ttl (getKey id log) (book_datastore b')) (a0 :: rest)
                 = []).
  { revert Hkept. generalize (a0 :: rest). intros l Hl.
    induction l as [|x l IH]; [reflexivity|]. cbn [flat_map].
    rewrite (proj1 (Hl x (list_elem_of_here _ _))). cbn. apply IH.
    intros addr Hin. apply Hl. by right. }
  assert (Hnew : filter (fun addr =>
                   addr_is_new ttl (getKey id log) (book_datastore b') addr = true)
                   (a0 :: rest) = []).
  { revert Hkept. generalize (a0 :: rest). intros l Hl.
    induction l as [|x l IH]; [reflexivity|].
    rewrite filter_cons_False.
    - apply IH. intros addr Hin. apply Hl. by right.
    - rewrite (proj2 (Hl x (list_elem_of_here _ _))). done. }
  rewrite Hops, Hnew. cbn. rewrite app_nil_r.
  destruct b' as [[entries options] emitted]. reflexivity.
Qed.


End AddrBookMore.

(** * Properties of the [Cache] decorator *)

Section CacheFacts.

Import Cache.

Context {V : Type} (truthy : V -> bool).

Implicit Types (params : CacheOptions) (s : State V) (v : V).

(** The value a call hands over: that of a plain return or of a promise
    that resolves. *)
Definition returned_value (r : Returned V) : option V :=
  match r with
  | Plain v => Some v
  | PromiseOf (Ok v) => Some v
  | PromiseOf (Throw _) => None
  end.

(** Whether a value cached at time [t0] is served at time [t1]. *)
Definition served params (v : V) (t0 t1 : Z) : bool :=
  truthy v
  && match read (duration params) with
     | Some d => negb (d =? 0) && (t1 <? t0 + d)
     | None => false
     end.

Lemma call_miss params now f s :
  fresh V truthy now s = None -> fst (call V truthy params now f s) = f tt.
Proof.
  intros Hmiss. unfold call. rewrite Hmiss.
  destruct (f tt) as [[v|[v|err]]|err]; reflexivity.
Qed.

Lemma call_caches params t0 f0 s0 ret0 v :
  fresh V truthy t0 s0 = None ->
  f0 tt = Ok ret0 ->
  returned_value ret0 = Some v ->
  let s1 := snd (call V truthy params t0 f0 s0) in
  fst (call V truthy params t0 f0 s0) = Ok ret0
  /\ value s1 = Some v
  /\ cacheUntil s1
     = match read (duration params) with
       | Some d => if d =? 0 then None else Some (t0 + d)
       | None => None
       end
  /\ ret0 = match funcType s1 with Some promise => PromiseOf (Ok v) | _ => Plain v end.
Proof.
  intros Hmiss Hf Hv. unfold call. rewrite Hmiss, Hf.
  destruct ret0 as [v'|[v'|err]]; cbn in Hv; [| |discriminate];
    injection Hv as ->; cbn; done.
Qed.

Lemma call_hit params now f s v :
  value s = Some v ->
  truthy v = true ->
  (exists until, cacheUntil s = Some until /\ now < until) ->
  call V truthy params now f s
  = (Ok (match funcType s with Some promise => PromiseOf (Ok v) | _ => Plain v end), s).
Proof.
  intros Hv Ht (until & Hu & Hnow). unfold call, fresh. rewrite Hv, Hu, Ht.
  destruct (Z.ltb_spec now until); [|lia]. cbn.
  destruct (funcType s) as [[]|]; reflexivity.
Qed.

(** X19.  After a call that ran the method and got a value, the next call
    is answered with that value and without running the method exactly
    when the value is truthy, the duration is a number other than zero
    and the time is before the time of the first call plus the duration;
    otherwise the method runs again and the call returns what it
    returns. *)
Theorem cache_next_call params t0 f0 s0 ret0 v t1 f1 :
  fresh V truthy t0 s0 = None ->
  f0 tt = Ok ret0 ->
  returned_value ret0 = Some v ->
  let s1 := snd (call V truthy params t0 f0 s0) in
  if served params v t0 t1
  then call V truthy params t1 f1 s1 = (Ok ret0, s1)
  else fst (call V truthy params t1 f1 s1) = f1 tt.
Proof.
  intros Hmiss Hf Hv s1.
  destruct (call_caches params t0 f0 s0 ret0 v Hmiss Hf Hv) as (_ & Hvalue & Huntil & Hret).
  fold s1 in Hvalue, Huntil, Hret. unfold served.
  destruct (truthy v) eqn:Ht; cbn [andb].
  - destruct (read (duration params)) as [d|].
    + destruct (Z.eqb_spec d 0) as [Hd|Hd]; cbn [negb andb].
      * apply call_miss. unfold fresh. by rewrite Hvalue, Huntil.
      * destruct (Z.ltb_spec t1 (t0 + d)).
        -- rewrite Hret at 1. apply call_hit; [done|done|]. exists (t0 + d). done.
        -- apply call_miss. unfold fresh. rewrite Hvalue, Huntil, Ht. cbn.
           by destruct (Z.ltb_spec t1 (t0 + d)); [lia|].
    + apply call_miss. unfold fresh. by rewrite Hvalue, Huntil.
  - apply call_miss. unfold fresh. rewrite Hvalue.
    destruct (cacheUntil s1); [by rewrite Ht|done].
Qed.

(** X20.  Once a call has run the method and got a truthy value, with a
    duration that is a number other than zero, all the calls made before
    the time of that call plus the duration, however many and in whatever
    order, return that value, none of them runs the method, and the
    closure stays as it is. *)
Theorem cache_serves_window params t0 f0 s0 ret0 v d
    (calls : list (Z * (unit -> Result (Returned V)))) :
  fresh V truthy t0 s0 = None ->
  f0 tt = Ok ret0 ->
  returned_value ret0 = Some v ->
  truthy v = true ->
  read (duration params) = Some d ->
  d <> 0 ->
  Forall (fun c => fst c < t0 + d) calls ->
  let s1 := snd (call V truthy params t0 f0 s0) in
  run V truthy params calls s1 = (map (fun _ => Ok ret0) calls, s1).
Proof.
  intros Hmiss Hf Hv Ht Hd Hd0 Hcalls s1.
  destruct (call_caches params t0 f0 s0 ret0 v Hmiss Hf Hv) as (_ & Hvalue & Huntil & Hret).
  fold s1 in Hvalue, Huntil, Hret. rewrite Hd in Huntil.
  destruct (Z.eqb_spec d 0); [done|].
  induction Hcalls as [|[t1 f1] rest Ht1 _ IH]; [reflexivity|].
  cbn [run map]. rewrite (call_hit params t1 f1 s1 v Hvalue Ht) by eauto.
  rewrite IH, <- Hret. reflexivity.
Qed.

(** X21.  A method decorated with a duration given as [undefined] or as
    zero is not cached at all: every call runs the method and returns
    what it returns. *)
Theorem cache_disabled params (calls : list (Z * (unit -> Result (Returned V)))) :
  duration params = Present None \/ duration params = Present (Some 0) ->
  decorate truthy params calls = map (fun c => snd c tt) calls.
Proof.
  intros Hoff. unfold decorate.
  assert (Hread : forall val now s,
            cacheUntil (cacheValue V (merge params) val now s) = None).
  { intros val now s. unfold cacheValue, merge. cbn.
    destruct Hoff as [-> | ->]; reflexivity. }
  assert (Hrun : forall s, cacheUntil s = None ->
            fst (run V truthy (merge params) calls s) = map (fun c => snd c tt) calls).
  { induction calls as [|[now f] rest IH]; intros s Hs; [reflexivity|].
    cbn [run map snd].
    assert (Hmiss : fresh V truthy now s = None).
    { unfold fresh. rewrite Hs. by destruct (value s). }
    pose proof (call_miss (merge params) now f s Hmiss) as Hfst.
    assert (Hnext : cacheUntil (snd (call V truthy (merge params) now f s)) = None).
    { unfold call. rewrite Hmiss.
      destruct (f tt) as [[v|[v|err]]|err]; cbn [snd]; try apply Hread; exact Hs. }
    destruct (call V truthy (merge params) now f s) as [r s'].
    cbn in Hfst, Hnext. specialize (IH s' Hnext).
    destruct (run V truthy (merge params) rest s') as [rs s'']. cbn in IH |- *.
    by rewrite Hfst, IH. }
  by apply Hrun.
Qed.

(** X22.  A failure is never kept: when the method throws or its promise
    is rejected, the call hands the failure over and the value and the
    time kept in the closure are as before, so that the value served at
    a given time is the one that was served before the failure.  A
    method that throws leaves the closure as it was; a promise that is
    rejected leaves in it that the method gives promises, so that a
    value served afterwards is handed over as a resolved promise, also
    when it was kept from a plain return. *)
Theorem cache_keeps_no_failure params now f s :
  fresh V truthy now s = None ->
  (exists err, f tt = Throw err \/ f tt = Ok (PromiseOf (Throw err))) ->
  let (r, s') := call V truthy params now f s in
  r = f tt
  /\ value s' = value s
  /\ cacheUntil s' = cacheUntil s
  /\ funcType s' = match f tt with Throw _ => funcType s | Ok _ => Some promise end
  /\ (forall t, fresh V truthy t s' = fresh V truthy t s)
  /\ forall t f',
       fst (call V truthy params t f' s')
       = match fresh V truthy t s with
         | Some v =>
             match f tt with
             | Throw _ => fst (call V truthy params t f' s)
             | Ok _ => Ok (PromiseOf (Ok v))
             end
         | None => f' tt
         end.
Proof.
  intros Hmiss (err & [Hf|Hf]); unfold call at 1; rewrite Hmiss, Hf; cbn.
  - repeat split; try done. intros t f'.
    destruct (fresh V truthy t s) eqn:Ht; [done|by apply call_miss].
  - repeat split; try done. intros t f'.
    destruct (fresh V truthy t s) as [v|] eqn:Ht.
    + unfold call. change (fresh V truthy t (set_funcType V promise s))
        with (fresh V truthy t s). by rewrite Ht.
    + by apply call_miss.
Qed.

End CacheFacts.

(** ** The further properties on concrete inputs *)

Lemma reduce_throws_unchanged_witness :
  let events := [Notes.ev "n2" (Notes.Write (Notes.text "c")); Notes.ev "n1" Notes.Touch] in
  let st' := snd (reduce events store_with_n1) in
  reduce events store_with_n1 = (Throw (mkError "Unknown Operation"), st')
  /\ st' = store_with_n1.
Proof.
  intros events st'.
  assert (Hred : reduce events store_with_n1 = (Throw (mkError "Unknown Operation"), st'))
    by reflexivity.
  split; [exact Hred|].
  exact (reduce_throws_unchanged events store_with_n1 _ st' Hred).
Defined.

Lemma reduce_unknown_operation_witness :
  let pre := [Notes.ev "n2" (Notes.Write (Notes.text "c"))] in
  let event := Notes.ev "n1" Notes.Touch in
  let post := [Notes.ev "n3" Notes.Erase] in
  let r := {| state := Some (Notes.text "a");
              action := Notes.note_action event (UnknownType 3) |} in
  (prior_state (ds_get (eventKey event) (datastore store_with_n1))
   = Ok (Some (Notes.text "a"))
   /\ codec_reduce (Some (Notes.text "a")) event = Ok r
   /\ action_type (action r) = UnknownType 3)
  /\ reduce (pre ++ event :: post) store_with_n1
     = (Throw (mkError "Unknown Operation"), store_with_n1).
Proof.
  intros pre event post r.
  assert (Hold : prior_state (ds_get (eventKey event) (datastore store_with_n1))
                 = Ok (Some (Notes.text "a"))) by reflexivity.
  assert (Hr : codec_reduce (Some (Notes.text "a")) event = Ok r) by reflexivity.
  assert (Hty : action_type (action r) = UnknownType 3) by reflexivity.
  split; [exact (conj Hold (conj Hr Hty))|].
  apply (reduce_unknown_operation pre post event store_with_n1 _ r 3 Hold Hr Hty).
  reflexivity.
Defined.

Lemma reduce_two_creates_witness :
  let e1 := Notes.ev "n1" (Notes.Write (Notes.text "a")) in
  let e2 := Notes.ev "n1" (Notes.Write (Notes.text "b")) in
  exists st',
    reduce [e1; e2] Notes.empty_store = (Ok tt, st')
    /\ ds_get (eventKey e1) (datastore st') = Ok (x40 :: Notes.text "b")
    /\ emitted st'
       = emitted Notes.empty_store
         ++ [stateChange [Notes.note_action e1 Create; Notes.note_action e2 Create]].
Proof.
  intros e1 e2.
  exact (reduce_two_creates e1 e2 Notes.empty_store
           {| state := Some (Notes.text "a"); action := Notes.note_action e1 Create |}
           {| state := Some (Notes.text "b"); action := Notes.note_action e2 Create |}
           eq_refl eq_refl eq_refl eq_refl eq_refl eq_refl).
Defined.

Lemma start_existing_thread_witness :
  (ds_get threadKey (datastore store_with_thread) = Ok [x01; x55]
   /\ fromBytes [x01; x55] = Ok [x01; x55])
  /\ start (ThreadInfo := string) [x02; x77] store_with_thread
     = (Ok (Adapter_new [x01; x55]), store_with_thread).
Proof.
  assert (Hget : ds_get threadKey (datastore store_with_thread) = Ok [x01; x55])
    by (vm_compute; reflexivity).
  split; [split; [exact Hget|reflexivity]|].
  exact (start_existing_thread [x02; x77] store_with_thread [x01; x55] [x01; x55]
           Hget eq_refl).
Defined.

Lemma start_persists_thread_witness :
  exists st' : Notes.NoteStore MemoryDatastore,
    start [x02; x77] Notes.empty_store = (Ok (Adapter_new [x02; x77]), st')
    /\ ds_get threadKey (datastore st') = Ok [x02; x77]
    /\ threadID st' = (Ok (Some [x02; x77]), st').
Proof.
  assert (Hnone : threadID (ThreadID := Buffer) Notes.empty_store
                  = (Ok None, Notes.empty_store)) by (vm_compute; reflexivity).
  assert (Hcreate : createThread [x02; x77] = Ok "thread info") by reflexivity.
  assert (Hadd : addThread "thread info" = Ok tt) by reflexivity.
  assert (Hid0 : fromBytes (bytes [x02; x77]) = Ok [x02; x77]) by reflexivity.
  destruct (start_persists_thread [x02; x77] Notes.empty_store "thread info"
              Hnone Hcreate Hadd Hid0)
    as (st' & Hstart & Hget & _ & _ & _ & Hid).
  exists st'. exact (conj Hstart (conj Hget Hid)).
Defined.

Lemma start_again_same_thread_witness :
  let first := start (ThreadInfo := string) [x02; x77] Notes.empty_store in
  fst first = Ok (Adapter_new [x02; x77])
  /\ start (ThreadInfo := string) [x03; x99] (snd first)
     = (Ok (Adapter_new [x02; x77]), snd first).
Proof.
  intros first.
  assert (Hfirst : first = (Ok (Adapter_new [x02; x77]), snd first))
    by (vm_compute; reflexivity).
  split; [by rewrite Hfirst|].
  assert (Hid : fromBytes (bytes [x02; x77]) = Ok [x02; x77]) by reflexivity.
  exact (start_again_same_thread [x02; x77] [x03; x99] Notes.empty_store (snd first)
           (Adapter_new [x02; x77]) Hid Hfirst).
Defined.

Lemma start_service_failure_witness :
  @start _ _ _ _ _ _ _ _ refusing_service [x02; x77] Notes.empty_store
  = (Throw (mkError "Service unavailable"), Notes.empty_store).
Proof.
  apply (@start_service_failure _ _ _ _ _ _ _ _ refusing_service).
  - vm_compute. reflexivity.
  - right. exists "thread info". split; reflexivity.
Defined.

Lemma registerSchema_fresh_witness :
  exists st',
    registerSchema "Person" "{name: string}" Notes.empty_store = (Ok tt, st')
    /\ getCollection "Person" st'
       = Some {| collection_name := "Person"; collection_validator := "{name: string}" |}
    /\ forall name', name' <> "Person" ->
         getCollection name' st' = getCollection name' Notes.empty_store.
Proof.
  exact (registerSchema_fresh "Person" "{name: string}" "{name: string}" Notes.empty_store
           eq_refl eq_refl eq_refl).
Defined.

Lemma registerSchema_throws_unchanged_witness :
  let call := @registerSchema _ _ _ _ _ strict_compiler "Empty" "" store_with_person in
  call = (Throw (mkError "schema is invalid"), snd call)
  /\ collections (snd call) = collections store_with_person
  /\ getCollection "Empty" (snd call) = None.
Proof.
  intros call.
  assert (Hcall : call = (Throw (mkError "schema is invalid"), snd call)) by reflexivity.
  split; [exact Hcall|].
  destruct (@registerSchema_throws_unchanged _ _ _ _ _ strict_compiler "Empty" ""
              store_with_person _ (snd call) Hcall) as (Hcols & _ & _ & Hget).
  split; [exact Hcols|]. rewrite Hget. reflexivity.
Defined.

(** A name whose registration failed on a schema that does not compile
    is registered by a second call with a schema that does: the first
    call leaves the store as it was. *)
Example registerSchema_retry :
  let first := @registerSchema _ _ _ _ _ strict_compiler "Pet" "" store_with_person in
  let second := @registerSchema _ _ _ _ _ strict_compiler "Pet" "{name: string}" (snd first) in
  first = (Throw (mkError "schema is invalid"), store_with_person)
  /\ fst second = Ok tt
  /\ is_Some (getCollection "Pet" (snd second)).
Proof.
  split; [reflexivity|]. split; [reflexivity|].
  by eexists.
Qed.



Lemma put_then_get_witness :
  exists b',
    AddrBook.put 1000 thread1 "log1" 10 [addr1; addr2] book1 = (Ok tt, b')
    /\ ttl_entries (AddrBook.book_datastore b')
         !! addr_key (AddrBook.getKey thread1 "log1") addr2
       = Some (Multiaddr_buffer addr2, 1010)
    /\ forall l, AddrBook.get thread1 "log1" b' = (Ok l, b') -> addr2 ∈ l.
Proof.
  apply (put_then_get 1000 thread1 "log1" 10 [addr1; addr2] addr2 book1 addr2).
  - lia.
  - compute_done.
  - apply elem_of_cons. right. by left.
  - intros v exp Hkey. vm_compute in Hkey. discriminate.
  - reflexivity.
Defined.

Lemma put_nonpositive_is_clear_witness :
  0 <= 0
  /\ AddrBook.put 1000 thread1 "log1" 0 [] book1 = AddrBook.clear 2000 thread1 "log1" book1.
Proof.
  split; [lia|]. apply put_nonpositive_is_clear. lia.
Defined.

Lemma put_nonpositive_deletes_witness :
  exists b',
    AddrBook.put 1000 thread1 "log1" (-5) [addr1] book1 = (Ok tt, b')
    /\ (forall key,
          ttl_entries (AddrBook.book_datastore b') !! key
          = if decide (key ∈ map (addr_key (AddrBook.getKey thread1 "log1")) [addr1])
            then None
            else ttl_entries (AddrBook.book_datastore book1) !! key)
    /\ AddrBook.book_emitted b' = AddrBook.book_emitted book1.
Proof.
  apply (put_nonpositive_deletes 1000 thread1 "log1" (-5) [addr1] book1); [lia|done].
Defined.

Lemma threads_lists_threads_witness :
  let l := [{| ID_string := "thread1" |}; {| ID_string := "thread2" |}] in
  AddrBook.threads book1 = (Ok l, book1)
  /\ exists i, AddrBook.fromEncoded (ID_string thread2) = Ok i /\ i ∈ l.
Proof.
  intros l.
  assert (Hthreads : AddrBook.threads book1 = (Ok l, book1)) by (vm_compute; reflexivity).
  split; [exact Hthreads|].
  apply (threads_lists_threads thread2 "log2" addr2 book1 l); [| | | |exact Hthreads].
  - solve_plain.
  - solve_plain.
  - vm_compute. repeat (constructor; [solve_plain|]). constructor.
  - reflexivity.
Defined.

(** The default options: no duration is given, so that it is 3000. *)
Definition default_params : Cache.CacheOptions :=
  Cache.merge {| Cache.duration := Cache.Missing |}.

Lemma cache_next_call_witness :
  let s1 := snd (Cache.call Z truthy_number default_params 1000 (returns 7) Cache.init) in
  Cache.call Z truthy_number default_params 3999 (returns 8) s1 = (Ok (Cache.Plain 7), s1)
  /\ fst (Cache.call Z truthy_number default_params 4000 (returns 8) s1) = Ok (Cache.Plain 8).
Proof.
  intros s1. split.
  - exact (cache_next_call truthy_number default_params 1000 (returns 7) Cache.init
             (Cache.Plain 7) 7 3999 (returns 8) eq_refl eq_refl eq_refl).
  - exact (cache_next_call truthy_number default_params 1000 (returns 7) Cache.init
             (Cache.Plain 7) 7 4000 (returns 8) eq_refl eq_refl eq_refl).
Defined.

Lemma cache_serves_window_witness :
  let s1 := snd (Cache.call Z truthy_number default_params 1000 (resolves 7) Cache.init) in
  Cache.run Z truthy_number default_params
    [(1500, returns 8); (3999, rejects "down"); (1000, resolves 9)] s1
  = ([Ok (Cache.PromiseOf (Ok 7)); Ok (Cache.PromiseOf (Ok 7)); Ok (Cache.PromiseOf (Ok 7))],
     s1).
Proof.
  intros s1.
  apply (cache_serves_window truthy_number default_params 1000 (resolves 7) Cache.init
           (Cache.PromiseOf (Ok 7)) 7 3000); try reflexivity; [lia|].
  repeat (constructor; [cbn; lia|]). constructor.
Defined.

Lemma cache_disabled_witness :
  Cache.decorate truthy_number {| Cache.duration := Cache.Present None |}
    [(1000, returns 7); (1001, returns 8)]
  = [Ok (Cache.Plain 7); Ok (Cache.Plain 8)].
Proof.
  apply (cache_disabled truthy_number {| Cache.duration := Cache.Present None |}
           [(1000, returns 7); (1001, returns 8)]).
  by left.
Defined.

Lemma cache_keeps_no_failure_witness :
  let s1 := snd (Cache.call Z truthy_number default_params 1000 (returns 7) Cache.init) in
  let (r, s') := Cache.call Z truthy_number default_params 5000 (rejects "down") s1 in
  r = rejects "down" tt
  /\ Cache.value s' = Some 7
  /\ Cache.cacheUntil s' = Some 4000
  /\ Cache.funcType s' = Some Cache.promise
  /\ Cache.call Z truthy_number default_params 3999 (returns 8) s1 = (Ok (Cache.Plain 7), s1)
  /\ fst (Cache.call Z truthy_number default_params 3999 (returns 8) s')
     = Ok (Cache.PromiseOf (Ok 7))
  /\ fst (Cache.call Z truthy_number default_params 6000 (returns 8) s') = Ok (Cache.Plain 8).
Proof.
  intros s1.
  pose proof (cache_keeps_no_failure truthy_number default_params 5000 (rejects "down") s1
                eq_refl (ex_intro _ (mkError "down") (or_intror eq_refl))) as Hkeep.
  destruct (Cache.call Z truthy_number default_params 5000 (rejects "down") s1) as [r s'].
  destruct Hkeep as (Hr & Hvalue & Huntil & Htype & _ & Hlater).
  split; [exact Hr|]. split; [exact Hvalue|]. split; [exact Huntil|].
  split; [exact Htype|]. split; [reflexivity|].
  split; [exact (Hlater 3999 (returns 8))|exact (Hlater 6000 (returns 8))].
Defined.

Lemma put_twice_witness :
  let b' := snd (AddrBook.put 1000 thread1 "log1" 10 [addr1; addr2] book1) in
  AddrBook.put 1000 thread1 "log1" 10 [addr1; addr2] book1 = (Ok tt, b')
  /\ AddrBook.put 1000 thread1 "log1" 10 [addr1; addr2] b' = (Ok tt, b').
Proof.
  intros b'.
  assert (Hput : AddrBook.put 1000 thread1 "log1" 10 [addr1; addr2] book1 = (Ok tt, b'))
    by (vm_compute; reflexivity).
  split; [exact Hput|].
  apply (put_twice 1000 thread1 "log1" 10 [addr1; addr2] book1 b'); [lia|done|exact Hput].
Defined.

Lemma reduce_save_or_delete_witness :
  let event := Notes.ev "n5" (Notes.Append (Notes.text "b")) in
  exists st',
    reduce [event] store_with_n1 = (Ok tt, st')
    /\ ds_get (eventKey event) (datastore st') = Ok (x40 :: Notes.text "b")
    /\ (forall key, key <> eventKey event ->
          ds_get key (datastore st') = ds_get key (datastore store_with_n1))
    /\ emitted st' = emitted store_with_n1 ++ [stateChange [Notes.note_action event Save]].
Proof.
  intros event.
  assert (Hold : prior_state (T := Buffer) (ds_get (eventKey event) (datastore store_with_n1))
                 = Ok None) by (vm_compute; reflexivity).
  exact (reduce_save_or_delete event store_with_n1 None
           {| state := Some (Notes.text "b"); action := Notes.note_action event Save |}
           Hold eq_refl (or_introl eq_refl)).
Defined.
